(** * conda/resolve.py: a shallow embedding and its verified properties

    The development follows the layout of [conda/resolve.py]:
    - Python's exceptions, and the [str] methods the module calls;
    - the external collaborators ([conda.version], [conda.config], the
      builtin [hash]) as interfaces;
    - [MatchSpec], [Package], the index and [Resolve];
    - the clause generator and the solver driver over the [Clauses] engine
      of [conda.logic].

    Python dictionaries and sets are finite maps and sets ([gmap], [gset]):
    their iteration order is the one of [map_to_list] and [elements], a
    fixed order the code must not depend on (as in the Python versions the
    module was written for).  Strings are byte strings. *)

From Stdlib Require Import ZArith String Ascii List.
From stdpp Require Import base option list gmap strings sorting pretty.

#[local] Open Scope string_scope.
#[local] Open Scope Z_scope.
#[local] Open Scope list_scope.
#[local] Set Warnings "-clear-no-such-hyp".

(** ** Exceptions *)

(** The exception classes that the module raises or lets escape. *)
Inductive exn : Set :=
  | ValueError
  | AssertionError
  | IndexError
  | KeyError
  | TypeError
  | AttributeError
  | RuntimeError
  | RecursionError
  | Unsatisfiable
  | NoPackagesFound.

#[global] Instance exn_eq_dec : EqDecision exn.
Proof. solve_decision. Defined.

(** [RecursionError] is what a definition by recursion on a depth bound
    raises when the bound is reached; the bounds below are never reached.

    [except TypeError] catches [TypeError] only: the two exception classes
    of the module derive from [RuntimeError]. *)
Definition isinstance_TypeError (e : exn) : bool :=
  match e with TypeError => true | _ => false end.

Inductive result (A : Type) : Type :=
  | Ok (a : A)
  | Raise (e : exn).
Arguments Ok {A} a.
Arguments Raise {A} e.

#[global] Instance result_ret : MRet result := fun A a => Ok a.
#[global] Instance result_bind : MBind result :=
  fun A B f m => match m with Ok a => f a | Raise e => Raise e end.
#[global] Instance result_fmap : FMap result :=
  fun A B f m => match m with Ok a => Ok (f a) | Raise e => Raise e end.

Definition is_Ok {A} (m : result A) : Prop := ∃ a, m = Ok a.

(** [[f(x) for x in l]], stopping at the first exception. *)
Fixpoint mapR {A B} (f : A → result B) (l : list A) : result (list B) :=
  match l with
  | [] => Ok []
  | x :: l => y ← f x; ys ← mapR f l; Ok (y :: ys)
  end.

(** ** The [str] methods used by the module *)

Module Str.

Fixpoint lstrip (s : string) : string :=
    match s with
    | String a s' => if Ascii.is_space a then lstrip s' else s
    | EmptyString => s
    end.

  (** [s.strip()] *)
Definition strip (s : string) : string :=
    String.rev (lstrip (String.rev (lstrip s))).

  (** [s.split()]: the words of [s], separated by runs of white space. *)
Definition split_ws (s : string) : list string := String.words s.

  (** [s.partition(c)] for a one-character separator. *)
Fixpoint partition (c : ascii) (s : string) : string * string * string :=
    match s with
    | EmptyString => ("", "", "")
    | String a s' =>
        if Ascii.eqb a c then ("", String c "", s')
        else let '(l, m, r) := partition c s' in (String a l, m, r)
    end.

  (** [s.split(c)] for a one-character separator: never empty. *)
Fixpoint split (c : ascii) (s : string) : list string :=
    match s with
    | EmptyString => [""]
    | String a s' =>
        if Ascii.eqb a c then "" :: split c s'
        else match split c s' with
             | w :: ws => String a w :: ws
             | [] => [String a ""]
             end
    end.

  (** [s.split(c, n)]: at most [n] cuts, from the left. *)
Fixpoint splitn (c : ascii) (n : nat) (s : string) : list string :=
    match n with
    | O => [s]
    | S n' =>
        match s with
        | EmptyString => [""]
        | String a s' =>
            if Ascii.eqb a c then "" :: splitn c n' s'
            else match splitn c n s' with
                 | w :: ws => String a w :: ws
                 | [] => [String a ""]
                 end
        end
    end.

  (** [s.rsplit(c, n)]: at most [n] cuts, from the right. *)
Definition rsplit (c : ascii) (n : nat) (s : string) : list string :=
    rev (String.rev <$> splitn c n (String.rev s)).

  (** [s[-1]] *)
Fixpoint last (s : string) : option ascii :=
    match s with
    | EmptyString => None
    | String a EmptyString => Some a
    | String _ s' => last s'
    end.

  (** [s[0]] *)
Definition head (s : string) : option ascii :=
    match s with String a _ => Some a | EmptyString => None end.

  (** [s[1:]] *)
Definition tail (s : string) : string :=
    match s with String _ s' => s' | EmptyString => "" end.

  (** [s[:-n]] *)
Definition drop_last (n : nat) (s : string) : string :=
    String.substring 0 (String.length s - n) s.

Definition startswith (p s : string) : bool := String.prefix p s.

  (** [s.endswith(c)] for a one-character suffix. *)
Definition endswith (c : ascii) (s : string) : bool :=
    match last s with Some a => Ascii.eqb a c | None => false end.

  (** [s.endswith(suffix)] *)
Definition endswith_str (suffix s : string) : bool :=
  String.prefix (String.rev suffix) (String.rev s).

(** [c in s] *)
Fixpoint contains (c : ascii) (s : string) : bool :=
    match s with
    | EmptyString => false
    | String a s' => Ascii.eqb a c || contains c s'
    end.

  (** [sep.join(l)] *)
Definition join (sep : string) (l : list string) : string :=
    String.concat sep l.

End Str.

(** ** External collaborators *)

(** [conda.version] is consumed through two entry points:
    [VersionSpec(str).match(ver_str)], the compiled version predicate, and
    [normalized_version(str)], which yields values compared by [==], [<]
    and [<=]; both constructors may raise. *)
Class VersionAPI := {
  VersionSpec : Type;
  VersionSpec_new : string → result VersionSpec;
  VersionSpec_match : VersionSpec → string → bool;
  NormalizedVersion : Type;
  normalized_version : string → result NormalizedVersion;
  nv_eqb : NormalizedVersion → NormalizedVersion → bool;
  nv_ltb : NormalizedVersion → NormalizedVersion → bool;
  nv_leb : NormalizedVersion → NormalizedVersion → bool;
}.


(** The builtin [hash], on strings. *)
Class HashAPI := { hash_str : string → Z }.

(** [conda.config.channel_priority] *)
Class ConfigAPI := { channel_priority : bool }.

(** ** MatchSpec *)

Module MatchSpec.
Section MatchSpec.
Context `{VersionAPI}.

  (** The attributes of a [MatchSpec] object.  [vspecs] is set only when
      [strictness] is 2 and [ver_build] only when it is 3: reading an unset
      attribute raises [AttributeError]. *)
Record t : Type := mk {
    spec : string;
    strictness : nat;
    name : string;
    vspecs : option VersionSpec;
    ver_build : option (string * string);
    target : option string;
    optional : bool;
  }.

  (** The options between the parentheses: [optional] or [target=...]. *)
Fixpoint parse_oparts (l : list string) (tgt : option string) (opt : option bool)
      : result (option string * option bool) :=
    match l with
    | [] => Ok (tgt, opt)
    | opart :: l =>
        if String.eqb opart "optional" then parse_oparts l tgt (Some true)
        else if Str.startswith "target=" opart then
          match Str.split "=" opart with
          | _ :: v :: _ => parse_oparts l (Some (Str.strip v)) opt
          | _ => Raise IndexError
          end
        else Raise ValueError
    end.

  (** [MatchSpec.__new__(cls, spec, target=None, optional=None)]: the
      argument [spec] is a string or already a [MatchSpec]. *)
Definition new (spec0 : string + t) (target0 : option string)
      (optional0 : option bool) : result t :=
    match spec0 with
    | inr ms => Ok ms
    | inl spec0 =>
        let '(spec1, _, oparts) := Str.partition "(" spec0 in
        _ ← (if negb (String.eqb oparts "") then
               match Str.last (Str.strip oparts) with
               | None => Raise IndexError
               | Some c => if negb (Ascii.eqb c ")") then Raise ValueError else Ok ()
               end
             else Ok ());
        let parts := Str.split_ws spec1 in
        let strictness := length parts in
        match parts with
        | [] | _ :: _ :: _ :: _ :: _ => Raise AssertionError
        | name :: rest =>
            vs ← match rest with
                 | [v] => Some <$> VersionSpec_new v
                 | _ => Ok None
                 end;
            let vb := match rest with [v; b] => Some (v, b) | _ => None end in
            '(tgt, opt) ← (if negb (String.eqb oparts "") then
                             parse_oparts (Str.split "," (Str.drop_last 1 (Str.strip oparts)))
                                          target0 optional0
                           else Ok (target0, optional0));
            Ok {| spec := Str.strip spec1; strictness := strictness; name := name;
                  vspecs := vs; ver_build := vb; target := tgt;
                  optional := default false opt |}
        end
    end.

  (** [MatchSpec.match_fast(self, version, build)] *)
Definition match_fast (self : t) (version build : string) : result bool :=
    if Nat.eqb (strictness self) 1 then Ok true
    else if Nat.eqb (strictness self) 2 then
      match vspecs self with
      | Some vs => Ok (VersionSpec_match vs version)
      | None => Raise AttributeError
      end
    else
      match ver_build self with
      | Some (v, b) => Ok (bool_decide ((version, build) = (v, b)))
      | None => Raise AttributeError
      end.

  (** The argument of [match]: a file name, or a record seen through its
      [name], [version] and [build]. *)
Inductive info : Type :=
    | InfoStr (fn : string)
    | InfoDict (name version build : string).

  (** [MatchSpec.match(self, info)] *)
Definition match_ (self : t) (i : info) : result bool :=
    nvb ← match i with
          | InfoStr fn =>
              match Str.rsplit "-" 2 (Str.drop_last 8 fn) with
              | [n; v; b] => Ok (n, v, b)
              | _ => Raise ValueError
              end
          | InfoDict n v b => Ok (n, v, b)
          end;
    let '(n, v, b) := nvb in
    if negb (String.eqb n (name self)) then Ok false
    else match_fast self v b.

  (** [MatchSpec.to_filename(self)] *)
Definition to_filename (self : t) : result (option string) :=
    if Nat.eqb (strictness self) 3 && negb (optional self) then
      match ver_build self with
      | Some (v, b) => Ok (Some (name self +:+ "-" +:+ v +:+ "-" +:+ b +:+ ".tar.bz2"))
      | None => Raise AttributeError
      end
    else Ok None.

  (** The objects [__eq__] may be handed. *)
Inductive object : Type :=
    | OMatchSpec (ms : t)
    | OStr (s : string)
    | ONone.

  (** [MatchSpec.__eq__(self, other)] *)
Definition eq (self : t) (other : object) : bool :=
    match other with
    | OMatchSpec other =>
        bool_decide ((spec self, optional self, target self)
                     = (spec other, optional other, target other))
    | _ => false
    end.

  (** [MatchSpec.__hash__(self)] *)
Definition hash `{HashAPI} (self : t) : Z := hash_str (spec self).

  (** [MatchSpec.__str__(self)] *)
Definition str (self : t) : string :=
    let has_target := match target self with Some "" | None => false | _ => true end in
    if optional self || has_target then
      let args := ((if optional self then ["optional"] else [])
                   ++ (match target self with
                       | Some tg => if has_target then ["target=" +:+ tg] else []
                       | None => []
                       end))%list in
      spec self +:+ " (" +:+ Str.join "," args +:+ ")"
    else spec self.

  (** What the constructor establishes. *)
Definition wf (ms : t) : Prop :=
    name ms ≠ "" ∧
    ((strictness ms = 1%nat ∧ vspecs ms = None ∧ ver_build ms = None) ∨
     (strictness ms = 2%nat ∧ is_Some (vspecs ms) ∧ ver_build ms = None) ∨
     (strictness ms = 3%nat ∧ vspecs ms = None ∧ is_Some (ver_build ms))).

End MatchSpec.
#[global] Arguments t {_}.
#[global] Arguments info : clear implicits.
End MatchSpec.

(** ** Sorting *)

(** [sorted(l)] with a stable insertion sort: [lt] is the comparison [<]
    of the elements (or of their keys), the only one [list.sort] uses. *)
Fixpoint insert_by {A} (lt : A → A → bool) (x : A) (l : list A) : list A :=
  match l with
  | [] => [x]
  | y :: l' => if lt y x then y :: insert_by lt x l' else x :: l
  end.

Definition sorted_by {A} (lt : A → A → bool) (l : list A) : list A :=
  foldr (insert_by lt) [] l.

(** [sorted(l)] and [l.sort()] on strings *)
Definition sorted_str (l : list string) : list string := sorted_by String.ltb l.

(** ** Index records *)

Module Info.

(** A record of the index.  [name], [version], [build] and [build_number]
    are read with [rec[key]]; a field read with [rec.get(key, default)]
    holds the default when the key is absent; [link] tells whether the key
    ['link'] is there. *)
Record t : Type := mk {
  name : string;
  version : string;
  build : string;
  build_number : Z;
  priority : Z;
  depends : list string;
  features : string;
  track_features : string;
  with_features_depends : gmap string (list string);
  link : bool;
}.

End Info.

(** ** Package *)

Module Package.
Section Package.
Context `{VersionAPI}.

(** The attributes the comparison methods read ([channel], [schannel] and
    [info] are only stored). *)
Record t : Type := mk {
  fn : string;
  name : string;
  version : string;
  build : string;
  build_number : Z;
  norm_version : NormalizedVersion;
}.

(** [Package.__init__(self, fn, info)] *)
Definition new (fn0 : string) (info : Info.t) : result t :=
  nv ← normalized_version (Info.version info);
  Ok {| fn := fn0; name := Info.name info; version := Info.version info;
        build := Info.build info; build_number := Info.build_number info;
        norm_version := nv |}.

Definition key (p : t) : NormalizedVersion * Z * string :=
  (norm_version p, build_number p, build p).

(** [==] and [<] on the tuples [(norm_version, build_number, build)]: the
    first components that differ decide. *)
Definition key_eqb (a b : NormalizedVersion * Z * string) : bool :=
  let '(v1, n1, b1) := a in
  let '(v2, n2, b2) := b in
  nv_eqb v1 v2 && Z.eqb n1 n2 && String.eqb b1 b2.

Definition key_ltb (a b : NormalizedVersion * Z * string) : bool :=
  let '(v1, n1, b1) := a in
  let '(v2, n2, b2) := b in
  if negb (nv_eqb v1 v2) then nv_ltb v1 v2
  else if negb (Z.eqb n1 n2) then Z.ltb n1 n2
  else String.ltb b1 b2.

(** [Package.__lt__(self, other)] *)
Definition lt (self other : t) : result bool :=
  if negb (String.eqb (name self) (name other)) then Raise TypeError
  else Ok (key_ltb (key self) (key other)).

(** [Package.__eq__(self, other)], for [other] a [Package] *)
Definition eq (self other : t) : bool :=
  if negb (String.eqb (name self) (name other)) then false
  else key_eqb (key self) (key other).

(** [Package.__ne__(self, other)] *)
Definition ne (self other : t) : bool := negb (eq self other).


(** [Package.__le__(self, other)] *)
Definition le (self other : t) : result bool := negb <$> lt other self.


End Package.
#[global] Arguments t {_}.
End Package.

(** ** The clause engine *)

Module Clauses.

(** Modelled from the spec: the [Clauses] class of [conda.logic], which
    is not among the sources.  The spec gives its interface:
    [new_var(name)], [from_name(name)], [from_index(i)], [Not(v)],
    [Any(vars)], [AtMostOne(vars)], [Or(v1,v2)], [Require(op, args)],
    [name_var(var,name)], [sat(constraints, alt=false) → model | None] and
    [minimize(coef_map, model, trymax=false) → (model, objective)], and
    tells that a model lists literals, the negative ones and those of
    the internal proxies being dropped by name.  Here a handle is a
    formula over the variables [1..m], a model is a list of literals
    ([v] for a true variable, [-v] for a false one), and the search
    itself is left to the interface [SatAPI] below. *)
#[local] Unset Elimination Schemes.
Inductive formula : Type :=
  | FTrue
  | FFalse
  | FVar (v : Z)
  | FNot (f : formula)
  | FAny (fs : list formula)
  | FAtMostOne (fs : list formula)
  | FOr (f g : formula).
#[local] Set Elimination Schemes.

(** Modelled from the spec: the state of a [Clauses] object: the number
    of variables, the handle of each name, the name of each literal, and
    the formulas required so far. *)
Record t : Type := mk {
  m : Z;
  names : gmap string formula;
  indices : gmap Z string;
  clauses : list formula;
}.

(** Modelled from the spec: the truth value of a formula in a model. *)
Fixpoint eval (sol : list Z) (f : formula) : bool :=
  match f with
  | FTrue => true
  | FFalse => false
  | FVar v => bool_decide (v ∈ sol)
  | FNot f => negb (eval sol f)
  | FAny fs => existsb (eval sol) fs
  | FAtMostOne fs => bool_decide (length (filter (λ b, b = true) (map (eval sol) fs)) ≤ 1)%nat
  | FOr f g => eval sol f || eval sol g
  end.

(** Modelled from the spec: a model of a list of formulas lists no
    literal twice and makes every formula true. *)
Definition models (sol : list Z) (fs : list formula) : Prop :=
  NoDup sol ∧ Forall (λ f, eval sol f = true) fs.

(** Modelled from the spec: the search procedures of the engine.
    [sat_solve C fs] looks for a model of [fs] over the variables of [C];
    [pb_minimize C objective sol trymax] improves the model [sol] of the
    clauses of [C] for the objective.  Both may raise. *)
Class SatAPI := {
  sat_solve : t → list formula → result (option (list Z));
  pb_minimize : t → gmap string Z → list Z → bool → result (list Z * Z);
}.

(** Modelled from the spec: the guarantee the driver assumes, that what
    the engine returns as a model is one. *)
Class SatSound `{SatAPI} : Prop := {
  sat_solve_sound C fs sol : sat_solve C fs = Ok (Some sol) → models sol fs;
  pb_minimize_sound C objective sol trymax sol' v :
    pb_minimize C objective sol trymax = Ok (sol', v) →
    models sol (clauses C) → models sol' (clauses C);
}.

(** An argument of the operations: a name or a handle. *)
Definition arg : Type := string + formula.

(** Modelled from the spec: [Clauses()] *)
Definition new : t := {| m := 0; names := ∅; indices := ∅; clauses := [] |}.

(** Modelled from the spec: the negation of a handle. *)
Definition negate (f : formula) : formula :=
  match f with
  | FNot g => g
  | FTrue => FFalse
  | FFalse => FTrue
  | _ => FNot f
  end.

(** The literal a handle stands for, if it is one. *)
Definition literal (f : formula) : option Z :=
  match f with
  | FVar v => Some v
  | FNot (FVar v) => Some (- v)
  | _ => None
  end.

(** Modelled from the spec: [C.name_var(m, name)] names the handle, and
    its negation [!name]; a literal keeps the first name it was given. *)
Definition name_var (C : t) (f : formula) (name : string) : t :=
  let nname := "!" +:+ name in
  {| m := m C;
     names := <[nname := negate f]> (<[name := f]> (names C));
     indices := match literal f with
                | Some l =>
                    if bool_decide (indices C !! l = None)
                    then <[- l := nname]> (<[l := name]> (indices C))
                    else indices C
                | None => indices C
                end;
     clauses := clauses C |}.

(** Modelled from the spec: [C.new_var(name)] *)
Definition new_var (C : t) (name : string) : t :=
  let v := m C + 1 in
  name_var {| m := v; names := names C; indices := indices C; clauses := clauses C |}
           (FVar v) name.

(** Modelled from the spec: [C.from_name(name)] *)
Definition from_name (C : t) (name : string) : option formula := names C !! name.

(** Modelled from the spec: [C.from_index(i)] *)
Definition from_index (C : t) (i : Z) : option string := indices C !! i.

(** The handle of an argument: a name must be known. *)
Definition resolve (C : t) (a : arg) : result formula :=
  match a with
  | inl name => match from_name C name with Some f => Ok f | None => Raise KeyError end
  | inr f => Ok f
  end.

(** Modelled from the spec: [C.Not(x)], [C.Any(xs)], [C.Or(x, y)] and
    [C.AtMostOne(xs)] build handles. *)
Definition Not (C : t) (x : arg) : result formula := negate <$> resolve C x.
Definition Any (C : t) (xs : list arg) : result formula := FAny <$> mapR (resolve C) xs.
Definition Or (C : t) (x y : arg) : result formula :=
  f ← resolve C x; g ← resolve C y; Ok (FOr f g).
Definition AtMostOne (C : t) (xs : list arg) : result formula :=
  FAtMostOne <$> mapR (resolve C) xs.

(** Modelled from the spec: [C.Require(op, args)] adds the formula to
    those every model must satisfy. *)
Definition Require (C : t) (f : result formula) : result t :=
  f ← f;
  Ok {| m := m C; names := names C; indices := indices C; clauses := clauses C ++ [f] |}.

Section Search.
Context `{SatAPI}.

(** Modelled from the spec: [C.sat(constraints, alt)]: each constraint is
    a tuple of arguments of which one must hold; with [alt] the
    constraints of a successful search are kept. *)
Definition sat (C : t) (constraints : list (list arg)) (alt : bool)
    : result (option (list Z) * t) :=
  additional ← mapR (λ clause, FAny <$> mapR (resolve C) clause) constraints;
  solution ← sat_solve C (clauses C ++ additional);
  Ok (solution,
      if alt && bool_decide (is_Some solution)
      then {| m := m C; names := names C; indices := indices C;
              clauses := clauses C ++ additional |}
      else C).

(** Modelled from the spec: [C.minimize(objective, solution, trymax)] *)
Definition minimize (C : t) (objective : gmap string Z) (solution : list Z)
    (trymax : bool) : result (list Z * Z) :=
  pb_minimize C objective solution trymax.

End Search.
End Clauses.

(** ** Resolve *)

Module Resolve.
Section Resolve.
Context `{VersionAPI} `{ConfigAPI}.

(** The attributes of a [Resolve] object.  The two caches
    ([find_matches_], [ms_depends_]) memoize functions of the other
    attributes and the lists they hold are never updated in place: the
    model recomputes instead. *)
Record t : Type := mk {
  index : gmap string Info.t;
  groups : gmap string (list string);
  trackers : gmap string (list string);
  installed : gset string;
}.

(** [d.setdefault(k, []).append(x)] *)
Definition setdefault_append (k x : string) (d : gmap string (list string))
    : gmap string (list string) :=
  <[k := default [] (d !! k) ++ [x]]> d.

(** The first loop of [__init__]: a key [fkey[fstr]] for every feature
    activation of every record, pointing at the record of [fkey]. *)
Definition add_with_features (index0 : gmap string Info.t) : gmap string Info.t :=
  foldl (λ idx '(fkey, info),
           foldl (λ idx fstr, <[fkey +:+ "[" +:+ fstr +:+ "]" := info]> idx)
                 idx (map_to_list (Info.with_features_depends info)).*1)
        index0 (map_to_list index0).

(** The second loop of [__init__]. *)
Definition collect (index0 : gmap string Info.t)
    : gmap string (list string) * gmap string (list string) * gset string :=
  foldl (λ '(groups, trackers, installed) '(fkey, info),
           (setdefault_append (Info.name info) fkey groups,
            foldl (λ trackers feat, setdefault_append feat fkey trackers)
                  trackers (Str.split_ws (Info.track_features info)),
            if Info.link info then {[fkey]} ∪ installed else installed))
        (∅, ∅, ∅) (map_to_list index0).

(** The keys [version_key] returns: [(cpri, ver, bld)] when channel
    priority is on and [(ver, cpri, bld)] otherwise. *)
Inductive vkey : Type :=
  | VKeyPri (cpri : Z) (ver : NormalizedVersion) (bld : Z)
  | VKeyVer (ver : NormalizedVersion) (cpri : Z) (bld : Z).

(** [Resolve.version_key(self, fkey)] *)
Definition version_key_of (index0 : gmap string Info.t) (fkey : string) : result vkey :=
  match index0 !! fkey with
  | None => Raise KeyError
  | Some rec =>
      let cpri := - Info.priority rec in
      ver ← normalized_version (Info.version rec);
      let bld := Info.build_number rec in
      Ok (if channel_priority then VKeyPri cpri ver bld else VKeyVer ver cpri bld)
  end.

(** [<] and [==] on these tuples. *)
Definition vkey_ltb (a b : vkey) : bool :=
  match a, b with
  | VKeyPri c1 v1 b1, VKeyPri c2 v2 b2 =>
      if negb (Z.eqb c1 c2) then Z.ltb c1 c2
      else if negb (nv_eqb v1 v2) then nv_ltb v1 v2
      else Z.ltb b1 b2
  | VKeyVer v1 c1 b1, VKeyVer v2 c2 b2 =>
      if negb (nv_eqb v1 v2) then nv_ltb v1 v2
      else if negb (Z.eqb c1 c2) then Z.ltb c1 c2
      else Z.ltb b1 b2
  | _, _ => false
  end.

Definition vkey_eqb (a b : vkey) : bool :=
  match a, b with
  | VKeyPri c1 v1 b1, VKeyPri c2 v2 b2
  | VKeyVer v1 c1 b1, VKeyVer v2 c2 b2 => Z.eqb c1 c2 && nv_eqb v1 v2 && Z.eqb b1 b2
  | _, _ => false
  end.

(** [sorted(group, key=self.version_key, reverse=True)] *)
Definition sort_group (index0 : gmap string Info.t) (group : list string)
    : result (list string) :=
  keyed ← mapR (λ fkey, k ← version_key_of index0 fkey; Ok (k, fkey)) group;
  Ok (sorted_by (λ a b, vkey_ltb b.1 a.1) keyed).*2.

(** The last loop of [__init__], for [sort=True]. *)
Definition sort_groups (index0 : gmap string Info.t) (groups0 : gmap string (list string))
    : result (gmap string (list string)) :=
  foldl (λ acc '(name, group),
           groups1 ← acc; sorted ← sort_group index0 group;
           Ok (<[name := sorted]> groups1))
        (Ok groups0) (map_to_list groups0).

(** [Resolve.__init__(self, index, sort=False, processed=False)] *)
Definition new (index0 : gmap string Info.t) (sort processed : bool) : result t :=
  let index1 := if processed then index0 else add_with_features index0 in
  let '(groups0, trackers0, installed0) := collect index1 in
  groups1 ← (if sort then sort_groups index1 groups0 else Ok groups0);
  Ok {| index := index1; groups := groups1; trackers := trackers0;
        installed := installed0 |}.

(** [Resolve.version_key(self, fkey)] *)
Definition version_key (self : t) (fkey : string) : result vkey :=
  version_key_of (index self) fkey.

(** [Resolve.match_fast(self, ms, fkey)] *)
Definition match_fast (self : t) (ms : MatchSpec.t) (fkey : string) : result bool :=
  match index self !! fkey with
  | None => Raise KeyError
  | Some rec => MatchSpec.match_fast ms (Info.version rec) (Info.build rec)
  end.

(** [[p for p in l if f(p)]] *)
Fixpoint filterR {A} (f : A → result bool) (l : list A) : result (list A) :=
  match l with
  | [] => Ok []
  | x :: l => b ← f x; ys ← filterR f l; Ok (if (b : bool) then x :: ys else ys)
  end.

(** [Resolve.find_matches(self, ms)] *)
Definition find_matches (self : t) (ms0 : string + MatchSpec.t) : result (list string) :=
  ms ← MatchSpec.new ms0 None None;
  match Str.head (MatchSpec.name ms) with
  | None => Raise IndexError
  | Some c =>
      if Ascii.eqb c "@" then
        Ok (default [] (trackers self !! Str.tail (MatchSpec.name ms)))
      else
        filterR (match_fast self ms) (default [] (groups self !! MatchSpec.name ms))
  end.

(** [Resolve.features(self, fkey)] *)
Definition features (self : t) (fkey : string) : result (gset string) :=
  match index self !! fkey with
  | None => Raise KeyError
  | Some rec => Ok (list_to_set (Str.split_ws (Info.features rec)))
  end.

(** [Resolve.track_features(self, fkey)] *)
Definition track_features (self : t) (fkey : string) : result (gset string) :=
  match index self !! fkey with
  | None => Raise KeyError
  | Some rec => Ok (list_to_set (Str.split_ws (Info.track_features rec)))
  end.

(** [{d.name: d for d in l}], and the same loop over an existing dict. *)
Definition by_name (l : list MatchSpec.t) (d : gmap string MatchSpec.t)
    : gmap string MatchSpec.t :=
  foldl (λ d ms, <[MatchSpec.name ms := ms]> d) d l.

(** [Resolve.ms_depends(self, fkey)], by recursion on a bound [n] of the
    number of nested calls: the recursive call is on a shorter key. *)
Fixpoint ms_depends_ (n : nat) (self : t) (fkey : string) : result (list MatchSpec.t) :=
  match n with
  | O => Raise RecursionError
  | S n =>
      match index self !! fkey with
      | None => Raise KeyError
      | Some rec =>
          deps ← (if Str.endswith "]" fkey then
                    match Str.rsplit "[" 1 fkey with
                    | [f2; fstr] =>
                        base ← ms_depends_ n self f2;
                        match Info.with_features_depends rec !! Str.drop_last 1 fstr with
                        | None => Raise KeyError
                        | Some wfd =>
                            act ← mapR (λ dep, MatchSpec.new (inl dep) None None) wfd;
                            Ok (map_to_list (by_name act (by_name base ∅))).*2
                        end
                    | _ => Raise ValueError
                    end
                  else mapR (λ d, MatchSpec.new (inl d) None None) (Info.depends rec));
          feats ← features self fkey;
          fdeps ← mapR (λ feat, MatchSpec.new (inl ("@" +:+ feat)) None None) (elements feats);
          Ok (deps ++ fdeps)
      end
  end.

Definition ms_depends (self : t) (fkey : string) : result (list MatchSpec.t) :=
  ms_depends_ (S (String.length fkey)) self fkey.

(** [Resolve.package_triple(self, fkey)] *)
Definition package_triple (self : t) (fkey : string) : list string :=
  match index self !! fkey with
  | None =>
      let fkey1 := default "" (head (Str.rsplit "[" 1 fkey)) in
      let fkey2 := default "" (last (Str.rsplit "/" 1 fkey1)) in
      let fkey3 := if Str.endswith_str ".tar.bz2" fkey2 then Str.drop_last 8 fkey2
                   else fkey2 in
      Str.rsplit "-" 2 fkey3
  | Some rec => [Info.name rec; Info.version rec; Info.build rec]
  end.

(** [Resolve.package_name(self, fkey)] *)
Definition package_name (self : t) (fkey : string) : string :=
  default "" (head (package_triple self fkey)).







(** [Resolve.explicit(self, specs)] *)
Definition explicit (self : t) (specs0 : list (string + MatchSpec.t))
    : result (option (list string)) :=
  specs ← mapR (λ s, MatchSpec.new s None None) specs0;
  res ← match specs with
        | [ms0] =>
            ms ← MatchSpec.new (inr ms0) None None;
            fn ← MatchSpec.to_filename ms;
            match fn with
            | None => Ok None
            | Some fn =>
                if bool_decide (index self !! fn = None) then Ok None
                else deps ← ms_depends self fn;
                     res ← mapR MatchSpec.to_filename deps;
                     Ok (Some (res ++ [Some fn]))
            end
        | _ =>
            res ← mapR MatchSpec.to_filename
                       (filter (λ spec, MatchSpec.str spec ≠ "conda") specs);
            Ok (Some res)
        end;
  match res with
  | None => Ok None
  | Some res =>
      if bool_decide (None ∈ res) then Ok None
      else Ok (Some (sorted_str (omap id res)))
  end.

(** [for x in l: b = f(b, x)], stopping at the first exception. *)
Fixpoint foldR {A B} (f : B → A → result B) (l : list A) (b : B) : result B :=
  match l with
  | [] => Ok b
  | x :: l => b' ← f b x; foldR f l b'
  end.

(** The name and the handle [push_MatchSpec] gives a spec, by recursion
    on a bound [n] of the number of nested calls. *)
Fixpoint push_MatchSpec_ (n : nat) (self : t) (C : Clauses.t) (ms0 : string + MatchSpec.t)
    : result (string * Clauses.formula * Clauses.t) :=
  match n with
  | O => Raise RecursionError
  | S n =>
      ms ← MatchSpec.new ms0 None None;
      let name := "@s@" +:+ MatchSpec.spec ms +:+ (if MatchSpec.optional ms then "?" else "") in
      match Clauses.from_name C name with
      | Some m => Ok (name, m, C)
      | None =>
          c ← match Str.head (MatchSpec.name ms) with
              | Some c => Ok c
              | None => Raise IndexError
              end;
          '(m, libs, C1) ←
            (if Ascii.eqb c "@" then
               if negb (Nat.eqb (MatchSpec.strictness ms) 1) then Raise AssertionError
               else Ok (None,
                        if MatchSpec.optional ms then []
                        else default [] (trackers self !! Str.tail (MatchSpec.name ms)),
                        C)
             else
               let target := negb (MatchSpec.optional ms) in
               let tgroup := default [] (groups self !! MatchSpec.name ms) in
               libs ← filterR (λ fkey, b ← match_fast self ms fkey; Ok (eqb b target)) tgroup;
               if negb (String.eqb (MatchSpec.spec ms) (MatchSpec.name ms))
                  && Nat.eqb (length libs) (length tgroup)
               then '(_, m, C1) ← push_MatchSpec_ n self C (inl (MatchSpec.name ms));
                    Ok (Some m, libs, C1)
               else Ok (None, libs, C));
          m ← match m with
              | Some m => Ok m
              | None => Clauses.Any C1 (inl <$> libs)
              end;
          m ← (if MatchSpec.optional ms then Clauses.Not C1 (inr m) else Ok m);
          Ok (name, m, Clauses.name_var C1 m name)
      end
  end.

(** [Resolve.push_MatchSpec(self, C, ms, numeric=False)]: a nested call
    is on the name of a spec, which is a spec of its own. *)
Definition push_MatchSpec (self : t) (C : Clauses.t) (ms : string + MatchSpec.t)
    (numeric : bool) : result (Clauses.arg * Clauses.t) :=
  '(name, m, C1) ← push_MatchSpec_ 3 self C ms;
  Ok (if numeric then inr m else inl name, C1).

(** [Resolve.gen_clauses(self)] *)
Definition gen_clauses (self : t) : result Clauses.t :=
  C ← foldR (λ C '(name, group),
               let C1 := foldl Clauses.new_var C group in
               C2 ← Clauses.Require C1 (Clauses.AtMostOne C1 (inl <$> group));
               snd <$> push_MatchSpec self C2 (inl name) false)
            (map_to_list (groups self)) Clauses.new;
  foldR (λ C group,
           foldR (λ C fkey,
                    nkey ← Clauses.Not C (inl fkey);
                    deps ← ms_depends self fkey;
                    foldR (λ C ms,
                             if MatchSpec.optional ms then Ok C
                             else '(a, C1) ← push_MatchSpec self C (inr ms) false;
                                  Clauses.Require C1 (Clauses.Or C1 (inr nkey) a))
                          deps C)
                 group C)
        (map_to_list (groups self)).*2 C.

(** [[f(C, x) for x in l]] for an [f] that updates [C]. *)
Fixpoint mapC {A B} (f : Clauses.t → A → result (B * Clauses.t)) (l : list A) (C : Clauses.t)
    : result (list B * Clauses.t) :=
  match l with
  | [] => Ok ([], C)
  | x :: l => '(y, C1) ← f C x; '(ys, C2) ← mapC f l C1; Ok (y :: ys, C2)
  end.

(** The name [push_MatchSpec] returns without [numeric]. *)
Definition push_name (self : t) (C : Clauses.t) (ms : string + MatchSpec.t)
    : result (string * Clauses.t) :=
  '(name, _, C1) ← push_MatchSpec_ 3 self C ms; Ok (name, C1).

(** [Resolve.generate_spec_constraints(self, C, specs)] *)
Definition generate_spec_constraints (self : t) (C : Clauses.t) (specs : list MatchSpec.t)
    : result (list (list Clauses.arg) * Clauses.t) :=
  mapC (λ C ms, '(a, C1) ← push_MatchSpec self C (inr ms) false; Ok ([a], C1)) specs C.

(** [{k: 1 for k in l}] *)
Definition count_each (l : list string) : gmap string Z :=
  foldl (λ d k, <[k := 1]> d) ∅ l.

(** [Resolve.generate_feature_count(self, C)] *)
Definition generate_feature_count (self : t) (C : Clauses.t)
    : result (gmap string Z * Clauses.t) :=
  '(ks, C1) ← mapC (λ C name, push_name self C (inl ("@" +:+ name)))
                   (map_to_list (trackers self)).*1 C;
  Ok (count_each ks, C1).

(** [Resolve.generate_feature_metric(self, C)] *)
Definition generate_feature_metric (self : t) : result (gmap string Z * Z) :=
  foldR (λ '(eq, total) '(name, group),
           nf ← mapR (λ fkey, (λ s, Z.of_nat (size s)) <$> features self fkey) group;
           maxf ← match nf with
                  | [] => Raise ValueError
                  | n :: nf' => Ok (foldl Z.max n nf')
                  end;
           Ok (foldl (λ eq '(fn, fc), if Z.ltb fc maxf then <[fn := maxf - fc]> eq else eq)
                     eq (zip group nf),
               total + maxf))
        (map_to_list (groups self)) (∅, 0).

(** [Resolve.generate_removal_count(self, C, specs)] *)
Definition generate_removal_count (self : t) (C : Clauses.t) (specs : list MatchSpec.t)
    : result (gmap string Z * Clauses.t) :=
  '(ks, C1) ← mapC (λ C ms, '(name, C1) ← push_name self C (inl (MatchSpec.name ms));
                            Ok ("!" +:+ name, C1)) specs C;
  Ok (count_each ks, C1).

(** [Resolve.generate_package_count(self, C, missing)] *)
Definition generate_package_count (self : t) (C : Clauses.t) (missing : list string)
    : result (gmap string Z * Clauses.t) :=
  '(ks, C1) ← mapC (λ C nm, push_name self C (inl nm)) missing C;
  Ok (count_each ks, C1).

(** The comparisons of the pairs [(version_key, fkey)]. *)
Definition vkey_leb (a b : vkey) : bool :=
  match a, b with
  | VKeyPri c1 v1 b1, VKeyPri c2 v2 b2 =>
      if negb (Z.eqb c1 c2) then Z.leb c1 c2
      else if negb (nv_eqb v1 v2) then nv_leb v1 v2
      else Z.leb b1 b2
  | VKeyVer v1 c1 b1, VKeyVer v2 c2 b2 =>
      if negb (nv_eqb v1 v2) then nv_leb v1 v2
      else if negb (Z.eqb c1 c2) then Z.leb c1 c2
      else Z.leb b1 b2
  | _, _ => false
  end.

Definition pkg_eqb (a b : vkey * string) : bool := vkey_eqb a.1 b.1 && String.eqb a.2 b.2.
Definition pkg_ltb (a b : vkey * string) : bool :=
  if negb (vkey_eqb a.1 b.1) then vkey_ltb a.1 b.1 else String.ltb a.2 b.2.
Definition pkg_leb (a b : vkey * string) : bool :=
  if negb (vkey_eqb a.1 b.1) then vkey_leb a.1 b.1 else String.leb a.2 b.2.

(** [pkey[0] != nkey[0] or pkey[1] != nkey[1]] and [pkey[2] != nkey[2]] *)
Definition version_differs (a b : vkey) : bool :=
  match a, b with
  | VKeyPri c1 v1 _, VKeyPri c2 v2 _
  | VKeyVer v1 c1 _, VKeyVer v2 c2 _ => negb (Z.eqb c1 c2) || negb (nv_eqb v1 v2)
  | _, _ => true
  end.
Definition build_differs (a b : vkey) : bool :=
  match a, b with
  | VKeyPri _ _ b1, VKeyPri _ _ b2
  | VKeyVer _ _ b1, VKeyVer _ _ b2 => negb (Z.eqb b1 b2)
  | _, _ => true
  end.

(** The inner loop of [generate_version_metrics], over the packages of
    one name: the ranks [iv] of the version and [ib] of the build. *)
Definition rank_packages (include0 : bool) (pkgs : list (vkey * string))
    (eqv eqb : gmap string Z) : gmap string Z * gmap string Z :=
  let '(eqv, eqb, _, _, _) :=
    foldl (λ '(eqv, eqb, pkey, iv, ib) '(nkey, npkg),
             let '(iv, ib) :=
               match pkey with
               | None => (0, 0)
               | Some pkey =>
                   if version_differs pkey nkey then (iv + 1, 0)
                   else if build_differs pkey nkey then (iv, ib + 1)
                   else (iv, ib)
               end in
             (if negb (Z.eqb iv 0) || include0 then <[npkg := iv]> eqv else eqv,
              if negb (Z.eqb ib 0) || include0 then <[npkg := ib]> eqb else eqb,
              Some nkey, iv, ib))
          (eqv, eqb, None, 0, 0) pkgs in
  (eqv, eqb).

(** [Resolve.generate_version_metrics(self, C, specs, include0=False)] *)
Definition generate_version_metrics (self : t) (specs : list (string + MatchSpec.t))
    (include0 : bool) : result (gmap string Z * gmap string Z) :=
  mss ← mapR (λ s, MatchSpec.new s None None) specs;
  let sdict : gmap string (list MatchSpec.t) :=
    foldl (λ d s, <[MatchSpec.name s := default [] (d !! MatchSpec.name s) ++ [s]]> d) ∅ mss in
  foldR (λ '(eqv, eqb) '(name, mss),
           pkgs ← mapR (λ p, k ← version_key self p; Ok (k, p))
                       (default [] (groups self !! name));
           let targets :=
             omap (λ ms, match MatchSpec.target ms with
                         | Some tg =>
                             if negb (String.eqb tg "")
                                && bool_decide (is_Some (index self !! tg))
                             then Some tg else None
                         | None => None
                         end) mss in
           pkgs1 ← match targets with
                   | [] => Ok pkgs
                   | _ :: _ =>
                       v1 ← mapR (λ p, k ← version_key self p; Ok (k, p)) targets;
                       match v1 with
                       | [] => Raise ValueError
                       | x :: xs =>
                           let tver := foldl (λ mx p, if pkg_ltb mx p then p else mx) x xs in
                           let v2 := List.filter (λ p, pkg_ltb tver p) pkgs in
                           let v3 := reverse (List.filter
                                       (λ p, pkg_leb p tver && negb (existsb (pkg_eqb p) v1))
                                       pkgs) in
                           Ok (v1 ++ v2 ++ v3)
                       end
                   end;
           Ok (rank_packages include0 pkgs1 eqv eqb))
        (map_to_list sdict) (∅, ∅).

(** The verification and the pruning passes of [get_dists] are not
    modelled: [prune] stands for whatever they yield, the dictionary
    [touched], the specs added and the name the pruning failed on, and
    the statements below hold for every [prune]. *)
Class Pruner := {
  prune : t → list MatchSpec.t
          → result (gmap string bool * option (list MatchSpec.t) * option string);
}.

Context `{Clauses.SatAPI} `{Pruner}.

(** [Resolve.get_dists(self, specs, full=True)]: the last statements. *)
Definition get_dists (self : t) (specs : list MatchSpec.t)
    : result (gmap string Info.t * option (list MatchSpec.t) * option string) :=
  '(touched, new_specs, unsat) ← prune self specs;
  dists ← foldR (λ (dists : gmap string Info.t) '(fkey, val),
                   if (val : bool) then
                     match index self !! fkey with
                     | Some rec => Ok (<[fkey := rec]> dists)
                     | None => Raise KeyError
                     end
                   else Ok dists)
                (map_to_list touched) ∅;
  Ok (dists, new_specs, unsat).

(** What [solve] returns: one list, or all of them with [returnall]. *)
Inductive solutions : Type :=
  | One (l : list string)
  | All (ls : list (list string)).

Definition lists_of (r : solutions) : list (list string) :=
  match r with One l => [l] | All ls => ls end.

(** [clean(sol)], local to [solve] *)
Definition clean (C : Clauses.t) (sol : list Z) : list string :=
  omap (λ s, q ← Clauses.from_index C s;
             if negb (String.eqb q "") && negb (bool_decide (Str.head q = Some "!"%char))
                && negb (Str.contains "@" q)
             then Some q else None) sol.

(** [stripfeat(sol)], local to [solve] *)
Definition stripfeat (sol : string) : string := default "" (head (Str.split "[" sol)).

(** [dashlist(iter)] *)
Definition dashlist (l : list string) : string :=
  Str.join "" ((λ x, String "010" "  - " +:+ x) <$> l).

(** The differences reported when there are several solutions. *)
Definition solution_diffs (psolutions : list (list string)) : list (list string) :=
  let psols2 : list (gset string) := list_to_set <$> psolutions in
  let common := match psols2 with
                | [] => ∅
                | s :: ss => foldl (∩) s ss
                end in
  (λ sol, sorted_str (elements (sol ∖ common))) <$> psols2.

Definition solutions_warning (nsol : nat) (psolutions : list (list string)) : string :=
  String "010" "Warning: "
  +:+ (if Nat.ltb 10 nsol then ">10" else pretty nsol)
  +:+ " possible package resolutions (only showing differing packages):"
  +:+ dashlist (Str.join ", " <$> solution_diffs psolutions)
  +:+ (if Nat.ltb 10 nsol then String "010" "  ... and others" else "").

(** The loop [while True] of [solve], by recursion on a bound [n] of the
    number of iterations; it yields [nsol] and [psolutions]. *)
Fixpoint alternates (n : nat) (C : Clauses.t) (psolution : list string) (nsol : nat)
    (psolutions : list (list string)) : result (nat * list (list string)) :=
  match n with
  | O => Raise RecursionError
  | S n =>
      nclause ← mapR (λ q, match Clauses.from_name C q with
                           | Some f => Clauses.Not C (inr f)
                           | None => Raise TypeError
                           end) psolution;
      '(solution, C1) ← Clauses.sat C [inr <$> nclause] true;
      match solution with
      | None => Ok (nsol, psolutions)
      | Some solution =>
          let nsol1 := S nsol in
          if Nat.ltb 10 nsol1 then Ok (nsol1, psolutions)
          else let psolution1 := clean C1 solution in
               alternates n C1 psolution1 nsol1 (psolutions ++ [psolution1])
      end
  end.

(** The loop of [solve] that sorts the specs into [speco], [specr] and
    [speca], and removes their names from [specm]. *)
Definition classify (r2 : t) (len0 : nat)
    (st : list MatchSpec.t * list MatchSpec.t * list MatchSpec.t * gset string * nat)
    (s : MatchSpec.t)
    : result (list MatchSpec.t * list MatchSpec.t * list MatchSpec.t * gset string * nat) :=
  let '(speco, specr, speca, specm, k) := st in
  let specm := specm ∖ {[MatchSpec.name s]} in
  if negb (MatchSpec.optional s) then
    Ok (if Nat.ltb k len0 then (speco, specr ++ [s], speca, specm, S k)
        else (speco, specr, speca ++ [s], specm, S k))
  else
    fkeys ← find_matches r2 (inr s);
    if existsb (λ fkey, negb (String.eqb fkey "")) fkeys then
      s1 ← MatchSpec.new (inl (MatchSpec.name s)) (MatchSpec.target s) (Some true);
      Ok (speco ++ [s1], specr, speca ++ [s1], specm, S k)
    else Ok (speco, specr, speca, specm, S k).

(** [not x] for [x] a string or [None] *)
Definition no_name (x : option string) : bool :=
  match x with None | Some "" => true | _ => false end.

(** [Resolve.solve(self, specs, len0=None, returnall=False)]: the result
    comes with the messages sent to [stdoutlog].  The branch taken when
    the clauses have no model ends in [raise] on all its paths
    ([verify_specs] raises or [Unsatisfiable] is raised after it): the
    model raises [Unsatisfiable] there. *)
Definition solve (self : t) (specs0 : list (string + MatchSpec.t)) (len0 : option nat)
    (returnall : bool) : result (solutions * list string) :=
  let log0 := ["Solving package specifications ..."] in
  specs ← mapR (λ s, MatchSpec.new s None None) specs0;
  let len0 := default (length specs) len0 in
  '(dists, new_specs, unsat) ← get_dists self specs;
  if bool_decide (size dists = 0%nat) && no_name unsat then
    Ok (if returnall then All [[]] else One [], log0)
  else
    r2 ← new dists true true;
    C ← gen_clauses r2;
    '(constraints, C) ← generate_spec_constraints r2 C specs;
    '(solution, C) ← Clauses.sat C constraints true;
    match solution with
    | None | Some [] => Raise Unsatisfiable
    | Some solution =>
        st ← foldR (classify r2 len0) specs ([], [], [], dom (groups r2), 0%nat);
        st ← match new_specs with
             | Some new_specs => foldR (classify r2 len0) new_specs st
             | None => Raise TypeError
             end;
        let '(speco, specr, speca, specm, _) := st in
        extra ← mapR (λ s, MatchSpec.new (inl s) None None) (elements specm);
        let speca := speca ++ extra in
        '(eq_optional_c, C) ← generate_removal_count r2 C speco;
        '(solution, obj7) ← Clauses.minimize C eq_optional_c solution false;
        '(eq_req_v, eq_req_b) ← generate_version_metrics r2 (inr <$> specr) false;
        '(solution, obj3) ← Clauses.minimize C eq_req_v solution false;
        '(solution, obj4) ← Clauses.minimize C eq_req_b solution false;
        '(eq_feature_count, C) ← generate_feature_count r2 C;
        '(solution, obj1) ← Clauses.minimize C eq_feature_count solution false;
        '(eq_feature_metric, ftotal) ← generate_feature_metric r2;
        '(solution, obj2) ← Clauses.minimize C eq_feature_metric solution false;
        '(eq_v, eq_b) ← generate_version_metrics r2 (inr <$> speca) false;
        '(solution, obj5) ← Clauses.minimize C eq_v solution false;
        '(solution, obj6) ← Clauses.minimize C eq_b solution false;
        '(eq_c, C) ← generate_package_count r2 C (elements specm);
        '(solution, obj7) ← Clauses.minimize C eq_c solution true;
        let psolution := clean C solution in
        '(nsol, psolutions) ← alternates 10 C psolution 1 [psolution];
        let log1 := if Nat.ltb 1 nsol then [solutions_warning nsol psolutions] else [] in
        Ok (if returnall
            then All ((λ psol, sorted_str (stripfeat <$> psol)) <$> psolutions)
            else One (sorted_str (stripfeat <$> psolution)),
            log0 ++ log1 ++ [String "010" ""])
    end.

(** [get_(name, snames)], local to [bad_installed], by recursion on a
    bound [n] of the depth of the calls. *)
Fixpoint get_ (n : nat) (self : t) (name : string) (snames : gset string)
    : result (gset string) :=
  match n with
  | O => Raise RecursionError
  | S n =>
      if bool_decide (name ∈ snames) then Ok snames
      else
        foldR (λ snames fn,
                 deps ← ms_depends self fn;
                 foldR (λ snames ms, get_ n self (MatchSpec.name ms) snames) deps snames)
              (default [] (groups self !! name)) ({[name]} ∪ snames)
  end.

(** What [bad_installed] does once [solution] is set. *)
Definition bad_installed_finish (self : t) (installed : list string)
    (new_specs : list (string + MatchSpec.t)) (specs : list MatchSpec.t)
    (xtra : list string) (solution : option (list Z))
    : result (option (gset string) * list string) :=
  let has_solution := match solution with None | Some [] => false | _ => true end in
  if negb has_solution || negb (bool_decide (xtra = [])) then
    snames ← foldR (λ snames spec,
                      ms ← MatchSpec.new spec None None;
                      get_ (S (S (size (groups self)))) self (MatchSpec.name ms) snames)
                   new_specs ∅;
    let xtra1 := filter (λ x, x ∉ snames) xtra in
    if negb (bool_decide (xtra1 = []))
       || negb (has_solution || forallb (λ s, bool_decide (MatchSpec.name s ∈ snames)) specs)
    then Ok (Some (list_to_set (MatchSpec.name <$>
                     filter (λ s, MatchSpec.name s ∈ snames) specs)),
             filter (λ fn, package_name self fn ∉ snames) installed)
    else Ok (None, xtra1)
  else Ok (None, xtra).

(** [Resolve.bad_installed(self, installed, new_specs)] *)
Definition bad_installed (self : t) (installed : list string)
    (new_specs : list (string + MatchSpec.t))
    : result (option (gset string) * list string) :=
  match installed with
  | [] => Ok (None, [])
  | _ :: _ =>
      '(xtra, dists, specs) ←
        foldR (λ '(xtra, dists, specs) fn,
                 match index self !! fn with
                 | None => Ok (xtra ++ [fn], dists, specs)
                 | Some rec =>
                     ms ← MatchSpec.new (inl (Str.join " " (package_triple self fn))) None None;
                     Ok (xtra, <[fn := rec]> dists, specs ++ [ms])
                 end)
              installed ([], (∅ : gmap string Info.t), []);
      r2 ← new dists true true;
      C ← gen_clauses r2;
      '(constraints, C) ← generate_spec_constraints r2 C specs;
      solution ← match Clauses.sat C constraints false with
                 | Ok (solution, _) => Ok solution
                 | Raise e => if isinstance_TypeError e then Ok None else Raise e
                 end;
      bad_installed_finish self installed new_specs specs xtra solution
  end.

End Resolve.
End Resolve.

(** ** Vocabulary of the statements *)

(** The last element of [l] whose name is [n]: the one a dictionary keyed
    by name keeps. *)
Definition named `{VersionAPI} (n : string) (l : list MatchSpec.t) : option MatchSpec.t :=
  last (filter (λ ms, MatchSpec.name ms = n) l).

(** [ms] is of strictness 3 and not optional, and [fn] is its file name
    [name-version-build.tar.bz2]. *)
Definition has_filename `{VersionAPI} (ms : MatchSpec.t) (fn : string) : Prop :=
  MatchSpec.strictness ms = 3%nat ∧ MatchSpec.optional ms = false ∧
  ∃ v b, MatchSpec.ver_build ms = Some (v, b) ∧
         fn = MatchSpec.name ms +:+ "-" +:+ v +:+ "-" +:+ b +:+ ".tar.bz2".

(** The file names [explicit] lists for the parsed [specs]: those of the
    one spec and of its dependencies when it is alone, and those of all
    specs but ['conda'] otherwise; each of them must have a file name. *)
Definition explicit_files `{VersionAPI} `{ConfigAPI} (self : Resolve.t)
    (specs : list MatchSpec.t) (fns : list string) : Prop :=
  match specs with
  | [ms] =>
      ∃ fn deps dfns,
        has_filename ms fn ∧ is_Some (Resolve.index self !! fn) ∧
        Resolve.ms_depends self fn = Ok deps ∧
        Forall2 has_filename deps dfns ∧ fns = dfns ++ [fn]
  | _ => Forall2 has_filename (filter (λ spec, MatchSpec.str spec ≠ "conda") specs) fns
  end.

(** The dependency strings of every record of the index parse. *)
Definition deps_parse `{VersionAPI} `{ConfigAPI} (self : Resolve.t) : Prop :=
  ∀ fkey, is_Some (Resolve.index self !! fkey) → is_Ok (Resolve.ms_depends self fkey).




(** ** Vocabulary of the statements on the clauses *)

(** The formula under the negations of a handle. *)
Fixpoint under_nots (f : Clauses.formula) : Clauses.formula :=
  match f with
  | Clauses.FNot g => under_nots g
  | _ => f
  end.

(** The variable of [f], if [f] is one up to negations, has its two
    literals indexed. *)
Definition indexed (C : Clauses.t) (f : Clauses.formula) : Prop :=
  ∀ v, under_nots f = Clauses.FVar v →
    is_Some (Clauses.indices C !! v) ∧ is_Some (Clauses.indices C !! (- v)).

(** The named handles are indexed. *)
Definition named_indexed (C : Clauses.t) : Prop :=
  ∀ name f, Clauses.names C !! name = Some f → indexed C f.

(** [C1] extends [C]: the same variables and literal names, and at least
    the same required formulas. *)
Definition extends (C C1 : Clauses.t) : Prop :=
  Clauses.m C1 = Clauses.m C ∧ Clauses.indices C1 = Clauses.indices C ∧
  Clauses.clauses C ⊆ Clauses.clauses C1.

(** What the first loop of [gen_clauses] establishes for the groups [L]:
    a positive literal is named after an fkey of a group, one literal per
    fkey; a negative literal has a name that starts with [!]; and for
    each group a required formula bounds, by one, the true variables of
    its fkeys (those whose name does not start with [!]). *)
Record clauses_inv (L : list (string * list string)) (C : Clauses.t) : Prop := {
  ci_named : named_indexed C;
  ci_bound l : is_Some (Clauses.indices C !! l) → 1 ≤ Z.abs l ≤ Clauses.m C;
  ci_alloc v q :
    Clauses.indices C !! v = Some q → 0 < v → ∃ n g, (n, g) ∈ L ∧ q ∈ g;
  ci_neg v q : Clauses.indices C !! v = Some q → v < 0 → Str.head q = Some "!"%char;
  ci_inj v1 v2 q :
    Clauses.indices C !! v1 = Some q → Clauses.indices C !! v2 = Some q →
    0 < v1 → 0 < v2 → v1 = v2;
  ci_amo n g :
    (n, g) ∈ L →
    ∃ fs, Clauses.FAtMostOne fs ∈ Clauses.clauses C ∧
      Forall2 (λ k f, Str.head k ≠ Some "!"%char →
                 ∃ v, f = Clauses.FVar v ∧ Clauses.indices C !! v = Some k ∧ 0 < v) g fs;
}.

(** ** An instance of the interfaces, to run the model *)

Module Toy.

(** A version predicate: [1.7*] matches the versions that start with
    [1.7], any other text matches itself. *)
Definition glob_match (vs v : string) : bool :=
  if Str.endswith "*" vs then Str.startswith (Str.drop_last 1 vs) v else String.eqb vs v.

(** Versions are compared as strings. *)
#[export] Instance versions : VersionAPI := {|
  VersionSpec := string;
  VersionSpec_new v := Ok v;
  VersionSpec_match := glob_match;
  NormalizedVersion := string;
  normalized_version v := Ok v;
  nv_eqb := String.eqb;
  nv_ltb := String.ltb;
  nv_leb := String.leb;
|}.

#[export] Instance config : ConfigAPI := {| channel_priority := false |}.

Fixpoint hash_go (h : Z) (s : string) : Z :=
  match s with
  | EmptyString => h
  | String a s' => hash_go ((31 * h + Z.of_nat (nat_of_ascii a)) mod 2 ^ 32) s'
  end.

#[export] Instance hash : HashAPI := {| hash_str := hash_go 7 |}.

(** A search by enumeration: the assignments of the variables [1..m],
    and the first one that satisfies the formulas. *)
Fixpoint assignments (m : nat) : list (list Z) :=
  match m with
  | O => [[]]
  | S m' => l ← assignments m'; [l ++ [- Z.of_nat m]; l ++ [Z.of_nat m]]
  end.

(** The objectives are not optimized: [pb_minimize] returns the model it
    is given. *)
#[export] Instance engine : Clauses.SatAPI := {|
  Clauses.sat_solve C fs :=
    Ok (List.find (λ sol, forallb (Clauses.eval sol) fs)
                  (assignments (Z.to_nat (Clauses.m C))));
  Clauses.pb_minimize C objective sol trymax := Ok (sol, 0);
|}.

(** A pruning pass that keeps every record and adds no spec. *)
#[export] Instance keep_all : Resolve.Pruner := {|
  Resolve.prune self specs := Ok ((λ _, true) <$> Resolve.index self, Some [], None);
|}.

(** A record with the fields the examples set. *)
Definition record (name version build : string) (depends : list string) : Info.t :=
  {| Info.name := name; Info.version := version; Info.build := build;
     Info.build_number := 0; Info.priority := 1; Info.depends := depends;
     Info.features := ""; Info.track_features := "";
     Info.with_features_depends := ∅; Info.link := false |}.

(** The index of [test_circular_dependencies]. *)
Definition circular_index : gmap string Info.t :=
  list_to_map [("package1-1.0-0.tar.bz2", record "package1" "1.0" "0" ["package2"]);
               ("package2-1.0-0.tar.bz2", record "package2" "1.0" "0" ["package1"])].


(** Twelve builds of one package, as in [test_multiple_solution]. *)
Definition builds_index : gmap string Info.t :=
  list_to_map ((λ k : nat, ("pandas-0.11.0-np16py27_" +:+ pretty k +:+ ".tar.bz2",
                            record "pandas" "0.11.0" ("np16py27_" +:+ pretty k) []))
               <$> seq 1 12).

(** A package built against the feature [mkl], with the dependencies
    that replace its own when the feature is active. *)
Definition featured_index : gmap string Info.t :=
  list_to_map
    [("scipy-0.12.0-np17py27_0.tar.bz2",
      {| Info.name := "scipy"; Info.version := "0.12.0"; Info.build := "np17py27_0";
         Info.build_number := 0; Info.priority := 1;
         Info.depends := ["numpy 1.7*"; "python 2.7*"];
         Info.features := "mkl"; Info.track_features := "";
         Info.with_features_depends := {["mkl" := ["numpy 1.7.1 py27_p0"; "mkl-rt 11.0"]]};
         Info.link := false |})].

(** The [Resolve] object of an index of the examples. *)
Definition resolve_of (index : gmap string Info.t) (sort : bool) : Resolve.t :=
  match Resolve.new index sort false with
  | Ok self => self
  | Raise _ => Resolve.mk ∅ ∅ ∅ ∅
  end.

Definition circular : Resolve.t := resolve_of circular_index false.
Definition featured : Resolve.t := resolve_of featured_index false.
Definition builds : Resolve.t := resolve_of builds_index false.

End Toy.

(** * Properties *)

(** ** The error monad and the string methods *)

Lemma bind_Ok {A B} (f : A → result B) (m : result A) (b : B) :
  m ≫= f = Ok b ↔ ∃ a, m = Ok a ∧ f a = Ok b.
Proof.
  destruct m as [a|e]; simpl.
  - split; [eauto|]. intros (a' & [= <-] & ?); done.
  - split; [done|]. intros (? & ? & ?); done.
Qed.

Lemma mapR_Ok_length {A B} (f : A → result B) l ys :
  mapR f l = Ok ys → length ys = length l.
Proof.
  revert ys; induction l as [|x l IH]; intros ys; simpl.
  - by intros [= <-].
  - destruct (f x) as [y|]; [|done]; simpl.
    destruct (mapR f l) as [ys'|]; [|done]; simpl.
    intros [= <-]; simpl. by rewrite (IH ys').
Qed.

Lemma mapR_Ok_Forall2 {A B} (f : A → result B) l ys :
  mapR f l = Ok ys ↔ Forall2 (λ x y, f x = Ok y) l ys.
Proof.
  revert ys; induction l as [|x l IH]; intros ys; simpl.
  - split; [intros [= <-]; constructor | by inversion 1].
  - split.
    + destruct (f x) as [y|] eqn:Hx; [|done]; simpl.
      destruct (mapR f l) as [ys'|] eqn:Hl; [|done]; simpl.
      intros [= <-]. constructor; [done|]. by apply IH.
    + inversion 1 as [|? y ? ys' Hx Hl]; subst.
      rewrite Hx; simpl. apply IH in Hl. by rewrite Hl.
Qed.

Example partition_ex :
  Str.partition "(" "numpy 1.7* (optional)" = ("numpy 1.7* ", "(", "optional)").
Proof. reflexivity. Qed.

Example rsplit_ex :
  Str.rsplit "-" 2 (Str.drop_last 8 "scikit-learn-0.13.1-np17py27_0.tar.bz2")
  = ["scikit-learn"; "0.13.1"; "np17py27_0"].
Proof. reflexivity. Qed.

Example rsplit_bracket_ex :
  Str.rsplit "[" 1 "a-1-0.tar.bz2[mkl]" = ["a-1-0.tar.bz2"; "mkl]"].
Proof. reflexivity. Qed.

Example strip_ex : Str.strip "  foo 1.0  " = "foo 1.0".
Proof. reflexivity. Qed.

Example split_ex : Str.split "," "optional,target=burg" = ["optional"; "target=burg"].
Proof. reflexivity. Qed.


(** ** Orders given by a pair of boolean tests [==] and [<] *)

Record OrderLaws {A} (eqb ltb : A → A → bool) : Prop := {
  ol_refl a : eqb a a = true;
  ol_sym a b : eqb a b = true → eqb b a = true;
  ol_trans_eq a b c : eqb a b = true → eqb b c = true → eqb a c = true;
  ol_trans a b c : ltb a b = true → ltb b c = true → ltb a c = true;
  ol_lt_not_eq a b : ltb a b = true → eqb a b = false;
  ol_asym a b : ltb a b = true → ltb b a = false;
  ol_total a b : ltb a b = true ∨ eqb a b = true ∨ ltb b a = true;
}.

Section OrderLaws.
Context {A} {eqb ltb : A → A → bool} (HO : OrderLaws eqb ltb).


Lemma ol_lt_eq a b c : ltb a b = true → eqb b c = true → ltb a c = true.
Proof.
  intros Hab Hbc. destruct (ol_total _ _ HO a c) as [?|[Hac|Hca]]; [done|..].
  - assert (eqb a b = true) as Heq.
    { eapply (ol_trans_eq _ _ HO); [done|]. by apply (ol_sym _ _ HO). }
    by rewrite (ol_lt_not_eq _ _ HO _ _ Hab) in Heq.
  - assert (ltb c b = true) as Hcb by (eapply (ol_trans _ _ HO); done).
    apply (ol_lt_not_eq _ _ HO) in Hcb.
    apply (ol_sym _ _ HO) in Hbc. congruence.
Qed.


End OrderLaws.




Lemma string_compare_refl a : String.compare a a ≠ Lt.
Proof.
  intros E. pose proof (String.compare_antisym a a) as Ha.
  rewrite E in Ha. discriminate.
Qed.

Lemma string_ltb_leb a b :
  String.ltb a b = true ↔ String.leb a b = true ∧ a ≠ b.
Proof.
  unfold String.ltb, String.leb.
  destruct (String.compare a b) eqn:E.
  - apply String.compare_eq_iff in E as ->. split; [done|]. by intros [_ []].
  - split; [|done]. intros _; split; [done|]. intros ->.
    by apply string_compare_refl in E.
  - split; [done|]. by intros [? _].
Qed.

Lemma string_OrderLaws : OrderLaws String.eqb String.ltb.
Proof.
  split.
  - apply String.eqb_refl.
  - intros a b. by rewrite String.eqb_sym.
  - intros a b c ->%String.eqb_eq ->%String.eqb_eq. apply String.eqb_refl.
  - intros a b c [H1 N1]%string_ltb_leb [H2 N2]%string_ltb_leb.
    apply string_ltb_leb. split.
    + apply Is_true_true. etrans; apply Is_true_true; done.
    + intros ->. apply N1. by apply String.leb_antisym.
  - intros a b [_ N]%string_ltb_leb. by apply String.eqb_neq.
  - intros a b [H1 N1]%string_ltb_leb.
    destruct (String.ltb b a) eqn:E; [|done].
    apply string_ltb_leb in E as [H2 _]. destruct N1. by apply String.leb_antisym.
  - intros a b. destruct (decide (a = b)) as [->|N].
    + right; left. apply String.eqb_refl.
    + destruct (String.leb_total a b).
      * left. by apply string_ltb_leb.
      * right; right. apply string_ltb_leb. split; [done|]. congruence.
Qed.

(** ** MatchSpec *)

Lemma rev_app_nonempty s acc : acc ≠ "" → String.rev_app s acc ≠ "".
Proof.
  revert acc; induction s as [|a s IH]; intros acc Hacc; simpl.
  - done.
  - by apply IH.
Qed.

Lemma words_go_nonempty s cur :
  (∀ c, cur = Some c → c ≠ "") → Forall (λ w, w ≠ "") (String.words_go cur s).
Proof.
  revert cur; induction s as [|a s IH]; intros cur Hcur; simpl.
  - destruct cur as [c|]; simpl; [|constructor].
    constructor; [|constructor]. specialize (Hcur c eq_refl).
    destruct c; [done|]. unfold String.rev; simpl. by apply rev_app_nonempty.
  - destruct (Ascii.is_space a).
    + apply Forall_app; split; [|by apply IH].
      destruct cur as [c|]; simpl; [|constructor].
      constructor; [|constructor]. specialize (Hcur c eq_refl).
      destruct c; [done|]. unfold String.rev; simpl. by apply rev_app_nonempty.
    + apply IH. intros c [= <-]. by destruct cur.
Qed.

Lemma split_ws_nonempty s : Forall (λ w, w ≠ "") (Str.split_ws s).
Proof. by apply words_go_nonempty. Qed.

Section MatchSpecFacts.
Context `{VersionAPI}.

(** The constructor sets [vspecs] and [ver_build] as [strictness] tells. *)
Lemma MatchSpec_new_wf s tgt opt (ms : MatchSpec.t) :
  MatchSpec.new (inl s) tgt opt = Ok ms → MatchSpec.wf ms.
Proof.
  unfold MatchSpec.new.
  destruct (Str.partition "(" s) as [[spec1 sep] oparts].
  intros Hnew. apply bind_Ok in Hnew as (_ & _ & Hnew).
  pose proof (split_ws_nonempty spec1) as Hne.
  destruct (Str.split_ws spec1) as [|name [|v [|b [|? ?]]]]; try done.
  - simpl in Hnew. apply bind_Ok in Hnew as ([tg op] & _ & [= <-]).
    split; [by inversion Hne|]. by left.
  - apply bind_Ok in Hnew as (vs & Hvs & Hnew).
    apply bind_Ok in Hnew as ([tg op] & _ & [= <-]).
    split; [by inversion Hne|]. right; left; simpl.
    destruct (VersionSpec_new v); [|done]. injection Hvs as <-. eauto.
  - simpl in Hnew. apply bind_Ok in Hnew as ([tg op] & _ & [= <-]).
    split; [by inversion Hne|]. right; right; simpl. eauto.
Qed.

Lemma MatchSpec_match_fast_wf (ms : MatchSpec.t) v b :
  MatchSpec.wf ms →
  ∃ res, MatchSpec.match_fast ms v b = Ok res ∧
    (res = true ↔
       MatchSpec.strictness ms = 1%nat ∨
       (MatchSpec.strictness ms = 2%nat ∧
        ∃ vs, MatchSpec.vspecs ms = Some vs ∧ VersionSpec_match vs v = true) ∨
       (MatchSpec.strictness ms = 3%nat ∧ MatchSpec.ver_build ms = Some (v, b))).
Proof.
  intros [_ Hwf]. unfold MatchSpec.match_fast.
  destruct Hwf as [(-> & Hv & Hb)|[(-> & [vs Hv] & Hb)|(-> & Hv & [[v' b'] Hb])]];
    simpl; rewrite ?Hv, ?Hb.
  - eexists; split; [done|]. split; [by left|done].
  - eexists; split; [done|]. split.
    + intros Hm. right; left. eauto.
    + intros [?|[(_ & vs' & [= <-] & ?)|[? _]]]; done.
  - eexists; split; [done|]. rewrite bool_decide_eq_true. split.
    + intros [= -> ->]. right; right. done.
    + intros [?|[[? _]|[_ [= -> ->]]]]; done.
Qed.

(** C3: for a [MatchSpec] built from a spec string and a triple
    [(name, version, build)], [match] returns normally, and it returns
    [True] exactly when the names are equal and: the strictness is 1; or
    it is 2 and the compiled version predicate matches the version; or it
    is 3 and [(version, build)] is the spec's [ver_build] pair. *)
Theorem match_by_strictness s tgt opt (ms : MatchSpec.t) (n v b : string) :
  MatchSpec.new (inl s) tgt opt = Ok ms →
  ∃ res, MatchSpec.match_ ms (MatchSpec.InfoDict n v b) = Ok res ∧
    (res = true ↔
       n = MatchSpec.name ms ∧
       (MatchSpec.strictness ms = 1%nat ∨
        (MatchSpec.strictness ms = 2%nat ∧
         ∃ vs, MatchSpec.vspecs ms = Some vs ∧ VersionSpec_match vs v = true) ∨
        (MatchSpec.strictness ms = 3%nat ∧ MatchSpec.ver_build ms = Some (v, b)))).
Proof.
  intros Hwf%MatchSpec_new_wf. unfold MatchSpec.match_; simpl.
  destruct (String.eqb_spec n (MatchSpec.name ms)) as [->|Hn]; simpl.
  - destruct (MatchSpec_match_fast_wf ms v b Hwf) as (res & -> & Hres).
    exists res. split; [done|]. rewrite Hres. split; [by intros ?|by intros [_ ?]].
  - exists false. split; [done|]. split; [done|]. by intros [? _].
Qed.

(** C10: the constructor applied to a [MatchSpec] returns it as it is,
    whatever [target] and [optional] are passed. *)
Theorem new_of_MatchSpec (ms : MatchSpec.t) (tgt : option string) (opt : option bool) :
  MatchSpec.new (inr ms) tgt opt = Ok ms.
Proof. reflexivity. Qed.

(** C5: [a == b] holds exactly when [(spec, optional, target)] agree;
    the hash is a function of [spec] alone; so two specs with the same
    text that differ in [optional] or [target] have the same hash and are
    not equal. *)
Theorem eq_and_hash `{HashAPI} (a b : MatchSpec.t) :
  (MatchSpec.eq a (MatchSpec.OMatchSpec b) = true ↔
     (MatchSpec.spec a, MatchSpec.optional a, MatchSpec.target a)
     = (MatchSpec.spec b, MatchSpec.optional b, MatchSpec.target b)) ∧
  (MatchSpec.spec a = MatchSpec.spec b → MatchSpec.hash a = MatchSpec.hash b) ∧
  (MatchSpec.spec a = MatchSpec.spec b →
   MatchSpec.optional a ≠ MatchSpec.optional b ∨ MatchSpec.target a ≠ MatchSpec.target b →
   MatchSpec.hash a = MatchSpec.hash b ∧ MatchSpec.eq a (MatchSpec.OMatchSpec b) = false).
Proof.
  unfold MatchSpec.eq, MatchSpec.hash. split; [apply bool_decide_eq_true|].
  split; [by intros ->|]. intros -> Hne. split; [done|].
  apply bool_decide_eq_false. intros [= ? ?]. by destruct Hne.
Qed.

End MatchSpecFacts.

(** ** Package *)

Section PackageFacts.
Context `{VersionAPI} `{!VersionOrder}.









End PackageFacts.

(** ** Cutting strings *)

Lemma str_app_cons a s t : String a s +:+ t = String a (s +:+ t).
Proof. reflexivity. Qed.

Lemma str_app_nil_l t : "" +:+ t = t.
Proof. reflexivity. Qed.

Lemma str_app_nil_r s : s +:+ "" = s.
Proof. induction s as [|a s IH]; [done|]. by rewrite str_app_cons, IH. Qed.

Lemma str_app_assoc s1 s2 s3 : (s1 +:+ s2) +:+ s3 = s1 +:+ (s2 +:+ s3).
Proof. induction s1 as [|a s1 IH]; [done|]. by rewrite !str_app_cons, IH. Qed.

Lemma str_app_length s1 s2 :
  String.length (s1 +:+ s2) = (String.length s1 + String.length s2)%nat.
Proof. induction s1 as [|a s1 IH]; [done|]. rewrite str_app_cons; simpl. by rewrite IH. Qed.

Lemma rev_app_spec s acc : String.rev_app s acc = String.rev s +:+ acc.
Proof.
  unfold String.rev. revert acc. induction s as [|a s IH]; intros acc; simpl; [done|].
  by rewrite IH, (IH (String a "")), str_app_assoc.
Qed.

Lemma str_rev_cons a s : String.rev (String a s) = String.rev s +:+ String a "".
Proof. unfold String.rev at 1; simpl. apply rev_app_spec. Qed.

Lemma str_rev_app s1 s2 : String.rev (s1 +:+ s2) = String.rev s2 +:+ String.rev s1.
Proof.
  induction s1 as [|a s1 IH].
  - by rewrite str_app_nil_l, str_app_nil_r.
  - by rewrite str_app_cons, !str_rev_cons, IH, str_app_assoc.
Qed.

Lemma str_rev_involutive s : String.rev (String.rev s) = s.
Proof.
  induction s as [|a s IH]; [done|].
  by rewrite str_rev_cons, str_rev_app, IH.
Qed.

Lemma str_rev_length s : String.length (String.rev s) = String.length s.
Proof.
  induction s as [|a s IH]; [done|].
  rewrite str_rev_cons, str_app_length, IH. simpl. lia.
Qed.

(** One cut from the left: the separator is absent from the first part. *)
Lemma splitn_0 c s : Str.splitn c 0 s = [s].
Proof. by destruct s. Qed.

Lemma splitn_1_spec c s x y :
  Str.splitn c 1 s = [x; y] ↔ s = x +:+ String c y ∧ Str.contains c x = false.
Proof.
  revert x. induction s as [|a s IH]; intros x.
  - simpl. split; [done|]. intros [Hs _]. by destruct x.
  - cbn [Str.splitn]. destruct (Ascii.eqb_spec a c) as [->|Hac].
    + rewrite splitn_0. split.
      * by intros [= <- <-].
      * intros [Hs Hx]. destruct x as [|b x].
        { rewrite str_app_nil_l in Hs. by injection Hs as ->. }
        rewrite str_app_cons in Hs. injection Hs as <- _.
        simpl in Hx. by rewrite Ascii.eqb_refl in Hx.
    + split.
      * destruct (Str.splitn c 1 s) as [|w [|w' [|? ?]]] eqn:Hsp; try done.
        intros [= <- <-]. destruct (proj1 (IH w) eq_refl) as [-> Hw].
        rewrite str_app_cons. split; [done|]. simpl. rewrite Hw.
        by apply Ascii.eqb_neq in Hac as ->.
      * intros [Hs Hx]. destruct x as [|b x].
        { rewrite str_app_nil_l in Hs. by injection Hs as ->. }
        rewrite str_app_cons in Hs. injection Hs as <- Hs.
        simpl in Hx. apply orb_false_iff in Hx as [_ Hx].
        by rewrite (proj2 (IH x) (conj Hs Hx)).
Qed.

Lemma contains_rev c s : Str.contains c (String.rev s) = Str.contains c s.
Proof.
  assert (∀ s1 s2, Str.contains c (s1 +:+ s2) = Str.contains c s1 || Str.contains c s2) as Happ.
  { intros s1 s2. induction s1 as [|a s1 IH]; [done|].
    rewrite str_app_cons; simpl. by rewrite IH, orb_assoc. }
  induction s as [|a s IH]; [done|].
  rewrite str_rev_cons, Happ, IH. simpl. by rewrite orb_false_r, orb_comm.
Qed.

(** One cut from the right: the separator is absent from the last part. *)
Lemma rsplit_1_spec c s x y :
  Str.rsplit c 1 s = [x; y] ↔ s = x +:+ String c y ∧ Str.contains c y = false.
Proof.
  unfold Str.rsplit. split.
  - intros Hr.
    destruct (Str.splitn c 1 (String.rev s)) as [|w [|w' [|? ?]]] eqn:Hsp;
      simpl in Hr; try done.
    2: { apply (f_equal length) in Hr. rewrite !length_app in Hr. simpl in Hr. lia. }
    injection Hr as <- <-. apply splitn_1_spec in Hsp as [Hs Hw].
    apply (f_equal String.rev) in Hs.
    rewrite str_rev_involutive, str_rev_app, str_rev_cons, str_app_assoc in Hs.
    by rewrite contains_rev.
  - intros [-> Hy].
    rewrite str_rev_app, str_rev_cons, str_app_assoc. simpl.
    rewrite (proj2 (splitn_1_spec c _ (String.rev y) (String.rev x))).
    + simpl. by rewrite !str_rev_involutive.
    + by rewrite contains_rev.
Qed.

Lemma last_app_cons s c : Str.last (s +:+ String c "") = Some c.
Proof.
  induction s as [|a s IH]; [done|].
  rewrite str_app_cons. cbn [Str.last]. rewrite IH.
  destruct s; [done|]. by rewrite str_app_cons.
Qed.

(** ** The dependencies of an fkey *)

Lemma drop_last_app s c : Str.drop_last 1 (s +:+ String c "") = s.
Proof.
  unfold Str.drop_last. rewrite str_app_length. simpl.
  replace (String.length s + 1 - 1)%nat with (String.length s) by lia.
  induction s as [|a s IH]; [done|]. rewrite str_app_cons; simpl. by rewrite IH.
Qed.

Lemma rsplit_1_length c s x y :
  Str.rsplit c 1 s = [x; y] → (String.length x < String.length s)%nat.
Proof.
  intros [-> _]%rsplit_1_spec. rewrite str_app_length. simpl. lia.
Qed.

Section DependsFacts.
Context `{VersionAPI} `{ConfigAPI}.

(** The bound of [ms_depends] is never reached: any larger bound gives
    the same result. *)
Lemma ms_depends_bound (self : Resolve.t) n fkey :
  (String.length fkey < n)%nat →
  Resolve.ms_depends_ n self fkey = Resolve.ms_depends self fkey.
Proof.
  unfold Resolve.ms_depends. revert fkey.
  induction n as [n IH] using lt_wf_ind. intros fkey Hn.
  destruct n as [|n]; [lia|]. simpl.
  destruct (Resolve.index self !! fkey) as [rec|]; [|done].
  destruct (Str.endswith "]" fkey); [|done].
  destruct (Str.rsplit "[" 1 fkey) as [|f2 [|fstr [|? ?]]] eqn:Hsp; try done.
  apply rsplit_1_length in Hsp.
  rewrite (IH n) by lia. by rewrite (IH (String.length fkey)) by lia.
Qed.

Lemma ms_depends_unfold (self : Resolve.t) fkey :
  Resolve.ms_depends self fkey =
  match Resolve.index self !! fkey with
  | None => Raise KeyError
  | Some rec =>
      deps ← (if Str.endswith "]" fkey then
                match Str.rsplit "[" 1 fkey with
                | [f2; fstr] =>
                    base ← Resolve.ms_depends self f2;
                    match Info.with_features_depends rec !! Str.drop_last 1 fstr with
                    | None => Raise KeyError
                    | Some wfd =>
                        act ← mapR (λ dep, MatchSpec.new (inl dep) None None) wfd;
                        Ok (map_to_list (Resolve.by_name act (Resolve.by_name base ∅))).*2
                    end
                | _ => Raise ValueError
                end
              else mapR (λ d, MatchSpec.new (inl d) None None) (Info.depends rec));
      feats ← Resolve.features self fkey;
      fdeps ← mapR (λ feat, MatchSpec.new (inl ("@" +:+ feat)) None None) (elements feats);
      Ok (deps ++ fdeps)
  end.
Proof.
  unfold Resolve.ms_depends at 1. simpl.
  destruct (Resolve.index self !! fkey) as [rec|]; [|done].
  destruct (Str.endswith "]" fkey); [|done].
  destruct (Str.rsplit "[" 1 fkey) as [|f2 [|fstr [|? ?]]] eqn:Hsp; try done.
  apply rsplit_1_length in Hsp. by rewrite ms_depends_bound by lia.
Qed.

(** A dictionary filled by name holds, under each name, the last element
    of that name. *)
Lemma by_name_lookup (l : list MatchSpec.t) d n :
  Resolve.by_name l d !! n = match named n l with Some ms => Some ms | None => d !! n end.
Proof.
  unfold Resolve.by_name, named. revert d.
  induction l as [|ms l IH]; intros d; simpl; [done|].
  rewrite IH. rewrite filter_cons.
  destruct (decide (MatchSpec.name ms = n)) as [<-|Hn].
  - rewrite last_cons. destruct (last (filter _ l)); [done|].
    by rewrite lookup_insert_eq.
  - destruct (last (filter _ l)); [done|]. by rewrite lookup_insert_ne.
Qed.

Lemma named_Some n l (ms : MatchSpec.t) : named n l = Some ms → MatchSpec.name ms = n ∧ ms ∈ l.
Proof.
  unfold named. intros Hl.
  assert (ms ∈ filter (λ ms, MatchSpec.name ms = n) l) as Hin.
  { apply last_Some in Hl as [l' ->]. set_solver. }
  by apply list_elem_of_filter in Hin.
Qed.

End DependsFacts.

Section DependsTheorem.
Context `{VersionAPI} `{ConfigAPI}.

Lemma by_name_values (act base : list MatchSpec.t) :
  let merged := (map_to_list (Resolve.by_name act (Resolve.by_name base ∅))).*2 in
  NoDup (MatchSpec.name <$> merged) ∧
  ∀ d, d ∈ merged ↔
       named (MatchSpec.name d) act = Some d ∨
       (named (MatchSpec.name d) act = None ∧ named (MatchSpec.name d) base = Some d).
Proof.
  set (m := Resolve.by_name act (Resolve.by_name base ∅)). simpl.
  assert (∀ n d, m !! n = Some d ↔
            named n act = Some d ∨ (named n act = None ∧ named n base = Some d)) as Hm.
  { intros n d. unfold m. rewrite !by_name_lookup, lookup_empty.
    destruct (named n act), (named n base); intuition congruence. }
  assert (∀ n d, m !! n = Some d → MatchSpec.name d = n) as Hname.
  { intros n d [?%named_Some|[_ ?%named_Some]]%Hm; tauto. }
  split.
  - assert ((MatchSpec.name <$> (map_to_list m).*2) = (map_to_list m).*1) as ->.
    { rewrite <-list_fmap_compose. apply list_fmap_ext.
      intros i [n d] Hi%list_elem_of_lookup_2%elem_of_map_to_list. simpl. by apply Hname. }
    apply NoDup_fst_map_to_list.
  - intros d. rewrite list_elem_of_fmap. split.
    + intros [[n d'] [-> Hin%elem_of_map_to_list]]. simpl.
      rewrite (Hname _ _ Hin). by apply Hm.
    + intros Hd%Hm. exists (MatchSpec.name d, d). split; [done|].
      by apply elem_of_map_to_list.
Qed.

(** C4: the dependencies of an fkey end with a spec [@feat] for every tag
    of the record's [features].  Before them come, for an fkey without
    suffix, the record's [depends]; and for an fkey [f2[fstr]], the
    dependencies of [f2] merged by name with the entries of
    [with_features_depends[fstr]]: one spec per name, the entry of the
    activation if there is one, the dependency of [f2] otherwise. *)
Theorem ms_depends_merge (self : Resolve.t) (fkey : string) (rec : Info.t)
    (fdeps : list MatchSpec.t) :
  Resolve.index self !! fkey = Some rec →
  mapR (λ feat, MatchSpec.new (inl ("@" +:+ feat)) None None)
       (elements (list_to_set (C := gset string) (Str.split_ws (Info.features rec))))
  = Ok fdeps →
  (∀ feat, feat ∈ Str.split_ws (Info.features rec) →
     ∃ ms, MatchSpec.new (inl ("@" +:+ feat)) None None = Ok ms ∧ ms ∈ fdeps) ∧
  (∀ bdeps, Str.endswith "]" fkey = false →
     mapR (λ d, MatchSpec.new (inl d) None None) (Info.depends rec) = Ok bdeps →
     Resolve.ms_depends self fkey = Ok (bdeps ++ fdeps)) ∧
  (∀ f2 fstr base wfd act,
     fkey = f2 +:+ "[" +:+ fstr +:+ "]" → Str.contains "[" fstr = false →
     Resolve.ms_depends self f2 = Ok base →
     Info.with_features_depends rec !! fstr = Some wfd →
     mapR (λ dep, MatchSpec.new (inl dep) None None) wfd = Ok act →
     ∃ merged, Resolve.ms_depends self fkey = Ok (merged ++ fdeps) ∧
       NoDup (MatchSpec.name <$> merged) ∧
       ∀ d, d ∈ merged ↔
            named (MatchSpec.name d) act = Some d ∨
            (named (MatchSpec.name d) act = None ∧ named (MatchSpec.name d) base = Some d)).
Proof.
  intros Hrec Hfeat. split; [|split].
  - intros feat Hin. apply mapR_Ok_Forall2 in Hfeat.
    assert (feat ∈ elements (list_to_set (C := gset string) (Str.split_ws (Info.features rec))))
      as Hel by set_solver.
    apply list_elem_of_lookup in Hel as [i Hi].
    destruct (Forall2_lookup_l _ _ _ _ _ Hfeat Hi) as (ms & Hms & Hnew).
    exists ms. split; [done|]. by eapply list_elem_of_lookup_2.
  - intros bdeps Hend Hb. rewrite ms_depends_unfold, Hrec, Hend, Hb.
    unfold Resolve.features. rewrite Hrec. cbn [mbind result_bind]. by rewrite Hfeat.
  - intros f2 fstr base wfd act -> Hfstr Hbase Hwfd Hact.
    pose proof (by_name_values act base) as [Hnd Hmem].
    eexists. split; [|split; [exact Hnd|exact Hmem]].
    rewrite ms_depends_unfold, Hrec.
    assert (f2 +:+ "[" +:+ fstr +:+ "]" = (f2 +:+ "[" +:+ fstr) +:+ "]") as Heq.
    { by rewrite !str_app_assoc. }
    unfold Str.endswith. rewrite Heq, last_app_cons, Ascii.eqb_refl, <-Heq.
    rewrite (proj2 (rsplit_1_spec "[" _ f2 (fstr +:+ "]"))).
    2: { split; [done|]. clear -Hfstr.
         induction fstr as [|a s IH]; [done|].
         rewrite str_app_cons. simpl in *. apply orb_false_iff in Hfstr as [-> ?]. auto. }
    rewrite Hbase. cbn [mbind result_bind]. rewrite drop_last_app, Hwfd, Hact.
    unfold Resolve.features. rewrite Hrec. cbn [mbind result_bind]. by rewrite Hfeat.
Qed.

End DependsTheorem.

(** ** Sorting *)

Section Sorting.
Context {A} {eqb ltb : A → A → bool} (HO : OrderLaws eqb ltb).

Let leA (a b : A) : Prop := ltb b a = false.

Lemma insert_by_perm x l : insert_by ltb x l ≡ₚ x :: l.
Proof.
  induction l as [|y l IH]; simpl; [done|].
  destruct (ltb y x); [|done]. rewrite IH. apply Permutation_swap.
Qed.

Lemma sorted_by_perm l : sorted_by ltb l ≡ₚ l.
Proof.
  induction l as [|x l IH]; simpl; [done|].
  unfold sorted_by in *. simpl. by rewrite insert_by_perm, IH.
Qed.

Lemma leA_trans a b c : leA a b → leA b c → leA a c.
Proof.
  unfold leA. intros Hba Hcb. destruct (ltb c a) eqn:Hca; [|done].
  destruct (ol_total _ _ HO a b) as [Hab|[Heq|?]]; [..|congruence].
  - pose proof (ol_trans _ _ HO _ _ _ Hca Hab). congruence.
  - pose proof (ol_lt_eq HO _ _ _ Hca Heq). congruence.
Qed.

Lemma insert_by_sorted x l :
  StronglySorted leA l → StronglySorted leA (insert_by ltb x l).
Proof.
  induction 1 as [|y l Hl IH Hy]; simpl.
  - repeat constructor.
  - destruct (ltb y x) eqn:Hyx.
    + constructor; [done|].
      rewrite insert_by_perm. constructor; [|done].
      unfold leA. by apply (ol_asym _ _ HO).
    + constructor; [by constructor|].
      constructor; [done|].
      eapply Forall_impl; [done|]. intros z Hz. by eapply leA_trans.
Qed.

Lemma sorted_by_sorted l : StronglySorted leA (sorted_by ltb l).
Proof.
  induction l as [|x l IH]; [constructor|]. by apply insert_by_sorted.
Qed.

End Sorting.

Lemma sorted_str_sorted l : StronglySorted String.le (sorted_str l).
Proof.
  assert (∀ a b, String.ltb b a = false → String.le a b) as Hle.
  { intros a b Hba. unfold String.le. apply Is_true_true.
    destruct (String.leb_total a b) as [|Hle]; [done|].
    destruct (decide (a = b)) as [->|Hne]; [done|].
    assert (String.ltb b a = true) by (apply string_ltb_leb; split; [done|congruence]).
    congruence. }
  pose proof (sorted_by_sorted string_OrderLaws l) as Hs.
  unfold sorted_str. generalize dependent (sorted_by String.ltb l). clear l.
  intros l Hs. induction Hs as [|x l' Hs IH Hx]; constructor; [done|].
  eapply Forall_impl; [done|]. intros y Hy. by apply Hle.
Qed.

Lemma sorted_str_perm l : sorted_str l ≡ₚ l.
Proof. apply sorted_by_perm. Qed.

(** The sorted list is the only sorted rearrangement: the result does not
    depend on the sorting algorithm. *)
Lemma sorted_str_unique l l' :
  StronglySorted String.le l' → l' ≡ₚ l → l' = sorted_str l.
Proof.
  intros Hs Hp. apply (StronglySorted_unique String.le); [done|apply sorted_str_sorted|].
  by rewrite sorted_str_perm.
Qed.


(** ** The shortcut for explicit specifications *)

Section ExplicitFacts.
Context `{VersionAPI} `{ConfigAPI}.

Lemma to_filename_Some (ms : MatchSpec.t) fn :
  MatchSpec.to_filename ms = Ok (Some fn) ↔ has_filename ms fn.
Proof.
  unfold MatchSpec.to_filename, has_filename.
  destruct (Nat.eqb_spec (MatchSpec.strictness ms) 3) as [Hs|Hs]; simpl.
  - destruct (MatchSpec.optional ms); simpl.
    + split; [done|]. by intros (_ & ? & _).
    + destruct (MatchSpec.ver_build ms) as [[v b]|].
      * split.
        -- intros [= <-]. eauto 10.
        -- intros (_ & _ & v' & b' & [= <- <-] & ->). done.
      * split; [done|]. by intros (_ & _ & ? & ? & ? & _).
  - split; [done|]. by intros (? & _).
Qed.

Lemma has_filename_inj (ms : MatchSpec.t) fn fn' :
  has_filename ms fn → has_filename ms fn' → fn = fn'.
Proof. intros ?%to_filename_Some ?%to_filename_Some. congruence. Qed.

Lemma to_filename_wf (ms : MatchSpec.t) :
  MatchSpec.wf ms →
  (∃ fn, MatchSpec.to_filename ms = Ok (Some fn)) ∨ MatchSpec.to_filename ms = Ok None.
Proof.
  intros [_ Hwf]. unfold MatchSpec.to_filename.
  destruct Hwf as [(-> & _)|[(-> & _)|(-> & _ & [[v b] ->])]]; simpl; eauto.
  destruct (MatchSpec.optional ms); simpl; eauto.
Qed.

Lemma mapR_to_filename_Some (l : list MatchSpec.t) res :
  mapR MatchSpec.to_filename l = Ok res → None ∉ res →
  Forall2 has_filename l (omap id res).
Proof.
  revert res. induction l as [|ms l IH]; intros res; simpl.
  - intros [= <-] _. constructor.
  - intros (o & Ho & (res' & Hres & [= <-])%bind_Ok)%bind_Ok Hnone.
    destruct o as [fn|]; [|set_solver]. simpl.
    constructor; [by apply to_filename_Some|]. apply IH; [done|set_solver].
Qed.

Lemma mapR_to_filename_all (l : list MatchSpec.t) fns :
  Forall2 has_filename l fns → mapR MatchSpec.to_filename l = Ok (Some <$> fns).
Proof.
  induction 1 as [|ms fn l fns Hfn _ IH]; simpl; [done|].
  apply to_filename_Some in Hfn. by rewrite Hfn, IH.
Qed.

Lemma mapR_to_filename_wf (l : list MatchSpec.t) :
  Forall MatchSpec.wf l → is_Ok (mapR MatchSpec.to_filename l).
Proof.
  induction 1 as [|ms l Hms _ [res IH]]; simpl; [by eexists|].
  rewrite IH. destruct (to_filename_wf ms Hms) as [[fn ->]| ->]; by eexists.
Qed.

Lemma omap_id_Some {A} (l : list A) : omap id (Some <$> l) = l.
Proof. induction l as [|x l IH]; [done|]. cbn. by f_equal. Qed.

Lemma None_not_in_Some {A} (l : list A) : None ∉ Some <$> l.
Proof. intros (? & ? & _)%list_elem_of_fmap. done. Qed.

Lemma mapR_new_wf {A} (f : A → string) (l : list A) (r : list MatchSpec.t) :
  mapR (λ x, MatchSpec.new (inl (f x)) None None) l = Ok r → Forall MatchSpec.wf r.
Proof.
  intros Hr%mapR_Ok_Forall2. induction Hr as [|x ms l r Hx _ IH]; constructor; [|done].
  by eapply MatchSpec_new_wf.
Qed.

(** Every dependency is a spec the constructor built. *)
Lemma ms_depends_wf (self : Resolve.t) fkey deps :
  Resolve.ms_depends self fkey = Ok deps → Forall MatchSpec.wf deps.
Proof.
  unfold Resolve.ms_depends. generalize (S (String.length fkey)). intros n.
  revert fkey deps. induction n as [|n IH]; intros fkey deps; simpl; [done|].
  destruct (Resolve.index self !! fkey) as [rec|]; [|done].
  intros (ds & Hds & (feats & _ & (fdeps & Hfd & [= <-])%bind_Ok)%bind_Ok)%bind_Ok.
  apply Forall_app. split; [|by eapply (mapR_new_wf (λ feat, "@" +:+ feat))].
  destruct (Str.endswith "]" fkey); [|by eapply (mapR_new_wf id)].
  destruct (Str.rsplit "[" 1 fkey) as [|f2 [|fstr [|? ?]]]; try done.
  apply bind_Ok in Hds as (base & Hbase%IH & Hds).
  destruct (Info.with_features_depends rec !! _) as [wfd|]; [|done].
  apply bind_Ok in Hds as (act & Hact%(mapR_new_wf id) & [= <-]).
  apply Forall_forall. intros d Hd.
  apply (by_name_values act base) in Hd as [[_ Hd]%named_Some|[_ [_ Hd]%named_Some]].
  - by eapply Forall_forall in Hact.
  - by eapply Forall_forall in Hbase.
Qed.

(** C7: [explicit] returns a list exactly when every contributing spec
    has a file name, that is, is of strictness 3 and not optional, where
    for a single spec its file must be in the index and its dependencies
    contribute; the list is then the sorted list of these file names.  In
    all other cases it returns [None] (for specs built by the constructor,
    over an index whose dependency strings parse, it does not raise). *)
Theorem explicit_sorted_filenames (self : Resolve.t)
    (specs0 : list (string + MatchSpec.t)) (specs : list MatchSpec.t) :
  mapR (λ s, MatchSpec.new s None None) specs0 = Ok specs →
  (∀ res, Resolve.explicit self specs0 = Ok (Some res) ↔
          ∃ fns, explicit_files self specs fns ∧ res = sorted_str fns) ∧
  (∀ fns, StronglySorted String.le (sorted_str fns) ∧ sorted_str fns ≡ₚ fns) ∧
  (Forall MatchSpec.wf specs → deps_parse self →
   (¬ ∃ fns, explicit_files self specs fns) → Resolve.explicit self specs0 = Ok None).
Proof.
  intros Hparse. unfold Resolve.explicit. rewrite Hparse. cbn [mbind result_bind].
  assert (∀ (l : list MatchSpec.t) res,
            (res' ← mapR MatchSpec.to_filename l; Ok (Some res')) ≫=
              (λ res, match res with
                      | None => Ok None
                      | Some res =>
                          if bool_decide (None ∈ res) then Ok None
                          else Ok (Some (sorted_str (omap id res)))
                      end) = Ok (Some res) ↔
            ∃ fns, Forall2 has_filename l fns ∧ res = sorted_str fns) as Hmulti.
  { intros l res. split.
    - intros (o & (res' & Hres & [= <-])%bind_Ok & Hfin)%bind_Ok.
      case_bool_decide as Hnone; [done|]. injection Hfin as <-.
      eexists. split; [|done]. by apply mapR_to_filename_Some.
    - intros (fns & Hfns%mapR_to_filename_all & ->). rewrite Hfns.
      cbn [mbind result_bind]. rewrite bool_decide_eq_false_2 by apply None_not_in_Some.
      by rewrite omap_id_Some. }
  split; [|split].
  - intros res.
    destruct specs as [|ms [|ms' specs]]; [apply Hmulti| |apply Hmulti].
    cbn [MatchSpec.new mbind result_bind explicit_files]. split.
    + intros (o & (fn & Hfn & Hres)%bind_Ok & Hfin)%bind_Ok.
      destruct fn as [fn|]; [|by injection Hres as <-].
      case_bool_decide as Hidx; [by injection Hres as <-|].
      apply bind_Ok in Hres as (deps & Hdeps & (res' & Hres & [= <-])%bind_Ok).
      case_bool_decide as Hnone; [done|]. injection Hfin as <-.
      exists (omap id res' ++ [fn]). rewrite omap_app. split; [|done].
      exists fn, deps, (omap id res'). split; [by apply to_filename_Some|].
      split; [by destruct (Resolve.index self !! fn)|]. split; [done|].
      split; [|done]. apply mapR_to_filename_Some; [done|].
      intros Hin. apply Hnone, elem_of_app. by left.
    + intros (fns & (fn & deps & dfns & Hfn%to_filename_Some & [rec Hidx] & Hdeps
                       & Hd%mapR_to_filename_all & ->) & ->).
      rewrite Hfn. cbn [mbind result_bind].
      rewrite bool_decide_eq_false_2 by congruence.
      rewrite Hdeps. cbn [mbind result_bind]. rewrite Hd. cbn [mbind result_bind].
      rewrite bool_decide_eq_false_2.
      2: { rewrite elem_of_app, list_elem_of_singleton.
           intros [?%None_not_in_Some|?]; done. }
      by rewrite omap_app, omap_id_Some.
  - intros fns. split; [apply sorted_str_sorted|apply sorted_str_perm].
  - intros Hwf Hdp Hno.
    assert (∀ l : list MatchSpec.t, Forall MatchSpec.wf l →
              (¬ ∃ fns, Forall2 has_filename l fns) →
              (res' ← mapR MatchSpec.to_filename l; Ok (Some res')) ≫=
                (λ res, match res with
                        | None => Ok None
                        | Some res =>
                            if bool_decide (None ∈ res) then Ok None
                            else Ok (Some (sorted_str (omap id res)))
                        end) = Ok None) as Hmulti'.
    { intros l Hl Hnl. destruct (mapR_to_filename_wf l Hl) as [res Hres].
      rewrite Hres. cbn [mbind result_bind]. case_bool_decide as Hnone; [done|].
      destruct Hnl. eexists. by apply mapR_to_filename_Some. }
    destruct specs as [|ms [|ms' specs]].
    + by apply Hmulti'.
    + cbn [MatchSpec.new mbind result_bind explicit_files] in *.
      rewrite Forall_singleton in Hwf.
      destruct (to_filename_wf ms Hwf) as [[fn Hfn]|Hfn]; rewrite Hfn; [|done].
      cbn [mbind result_bind]. case_bool_decide as Hidx; [done|].
      destruct (Hdp fn) as [deps Hdeps].
      { by destruct (Resolve.index self !! fn). }
      rewrite Hdeps. cbn [mbind result_bind].
      destruct (mapR_to_filename_wf deps (ms_depends_wf _ _ _ Hdeps)) as [res Hres].
      rewrite Hres. cbn [mbind result_bind]. case_bool_decide as Hnone; [done|].
      destruct Hno. exists (omap id res ++ [fn]), fn, deps, (omap id res).
      split; [by apply to_filename_Some|]. split; [by destruct (Resolve.index self !! fn)|].
      split; [done|]. split; [|done]. apply mapR_to_filename_Some; [done|].
      intros Hin. apply Hnone, elem_of_app. by left.
    + apply Hmulti'; [|done]. apply Forall_forall.
      intros d [_ Hd]%list_elem_of_filter. by eapply Forall_forall in Hwf.
Qed.

End ExplicitFacts.

(** ** The constructor of [Resolve] *)

Section NewFacts.
Context `{VersionAPI} `{ConfigAPI}.





End NewFacts.

(** ** The validity test *)



Section ValidFacts.
Context `{VersionAPI} `{ConfigAPI}.




End ValidFacts.

Section ValidTheorem.
Context `{VersionAPI} `{ConfigAPI}.





End ValidTheorem.

Section ValidExamples.
#[local] Existing Instances Toy.versions Toy.config.



End ValidExamples.

(** ** The theorems on concrete inputs *)

Section Witnesses.
#[local] Existing Instances Toy.versions Toy.config Toy.hash.


Lemma match_by_strictness_witness :
  ∃ ms, MatchSpec.new (inl "numpy 1.7.1 py27_0") None None = Ok ms ∧
        MatchSpec.match_ ms (MatchSpec.InfoDict "numpy" "1.7.1" "py27_0") = Ok true.
Proof.
  eexists. split; [reflexivity|].
  destruct (match_by_strictness "numpy 1.7.1 py27_0" None None _ "numpy" "1.7.1" "py27_0"
              eq_refl) as (res & Hres & Hiff).
  rewrite Hres. f_equal. apply Hiff. split; [reflexivity|].
  right; right. split; reflexivity.
Defined.

Lemma eq_and_hash_witness :
  ∃ a d, MatchSpec.new (inl "numpy 1.7*") None None = Ok a ∧
         MatchSpec.new (inl "numpy 1.7* (optional)") None None = Ok d ∧
         MatchSpec.hash a = MatchSpec.hash d ∧
         MatchSpec.eq a (MatchSpec.OMatchSpec d) = false.
Proof.
  eexists _, _. split; [reflexivity|]. split; [reflexivity|].
  apply eq_and_hash; [reflexivity|]. left. discriminate.
Defined.


Lemma ms_depends_merge_witness :
  ∃ merged fdeps,
    Resolve.ms_depends Toy.featured "scipy-0.12.0-np17py27_0.tar.bz2[mkl]"
    = Ok (merged ++ fdeps) ∧
    MatchSpec.spec <$> fdeps = ["@mkl"] ∧
    NoDup (MatchSpec.name <$> merged).
Proof.
  destruct (Resolve.index Toy.featured !! "scipy-0.12.0-np17py27_0.tar.bz2[mkl]")
    as [rec|] eqn:Hrec; [|by vm_compute in Hrec].
  destruct (ms_depends_merge Toy.featured "scipy-0.12.0-np17py27_0.tar.bz2[mkl]" rec
              [MatchSpec.mk "@mkl" 1 "@mkl" None None None false] Hrec) as (_ & _ & Hmerge).
  { vm_compute in Hrec. injection Hrec as <-. vm_compute. reflexivity. }
  edestruct (Hmerge "scipy-0.12.0-np17py27_0.tar.bz2" "mkl") as (merged & Hdeps & Hnd & _).
  - reflexivity.
  - reflexivity.
  - vm_compute. reflexivity.
  - vm_compute in Hrec. injection Hrec as <-. vm_compute. reflexivity.
  - vm_compute. reflexivity.
  - eexists merged, _. split; [exact Hdeps|]. split; [reflexivity|exact Hnd].
Defined.

Lemma explicit_sorted_filenames_witness :
  Resolve.explicit Toy.circular [inl "package2 1.0 0"; inl "package1 1.0 0"]
  = Ok (Some ["package1-1.0-0.tar.bz2"; "package2-1.0-0.tar.bz2"]).
Proof.
  edestruct (explicit_sorted_filenames Toy.circular
               [inl "package2 1.0 0"; inl "package1 1.0 0"]) as (Hiff & _ & _).
  { vm_compute. reflexivity. }
  apply Hiff. exists ["package2-1.0-0.tar.bz2"; "package1-1.0-0.tar.bz2"].
  split; [|reflexivity]. unfold explicit_files.
  rewrite !filter_cons_True by discriminate. rewrite filter_nil.
  constructor; [|constructor; [|constructor]];
    (split; [reflexivity|split; [reflexivity|]]; eexists _, _; split; reflexivity).
Defined.

End Witnesses.
